(** * Session cache manager: a shallow embedding of
      [rag_modules/session_cache_manager.py] and its verification.

    The Python class [SessionCacheManager] keeps three dictionaries keyed by
    session id (cached answers, their embeddings, the conversation turns) and
    three configuration constants.  Its methods mutate these dictionaries in
    place and swallow most exceptions with [try]/[except].

    The embedding follows the code:
    - Python [str] is a list of Unicode code points (slicing counts code
      points, and the literals of the module are not ASCII);
    - [float] and [numpy.float64] are IEEE 754 binary64, Rocq's primitive
      floats, so that the comparison with NaN and the division by zero behave
      as they do in the program;
    - a [dict] whose iteration order is used ([session_cache], evicted through
      [next(iter(...))]) is an insertion-ordered association list; the
      dictionaries that are only indexed are [gmap]s;
    - a method is a computation in a state-and-exception monad over the
      manager, so that a mutation made before an exception is raised survives
      the [except] clause, as it does in Python. *)

From Stdlib Require Import Floats ZArith List Lia.
From stdpp Require Import gmap list fin_maps.

(** * Part I: the program

    ** Python values *)

(** A Python string: the list of its code points. *)
Definition str : Type := list N.

(** [not s] is true of the empty string (and of [None], the default of the
    [session_id] arguments, which the code never distinguishes from it). *)
Definition truthy (s : str) : bool :=
  match s with [] => false | _ :: _ => true end.

(** [sep.join(parts)]. *)
Fixpoint join (sep : str) (parts : list str) : str :=
  match parts with
  | [] => []
  | [p] => p
  | p :: ps => p ++ sep ++ join sep ps
  end.

(** The exceptions that the modelled operations can raise.  [ProviderError]
    stands for the exceptions deriving from [Exception] that the embedding
    provider raises (including the [AttributeError] of a manager built with
    [embedding_model=None]); [KeyboardInterrupt] stands for those deriving
    from [BaseException] only ([KeyboardInterrupt], [SystemExit], a
    cancellation), which [except Exception] does not catch. *)
Inductive exn : Type :=
| KeyError
| IndexError
| StopIteration
| ValueError
| ProviderError
| KeyboardInterrupt.

(** [isinstance(e, Exception)]. *)
Definition is_exception (e : exn) : bool :=
  match e with
  | KeyboardInterrupt => false
  | _ => true
  end.

Inductive outcome (A : Type) : Type :=
| Ret (a : A)
| Raise (e : exn).
Arguments Ret {A} a.
Arguments Raise {A} e.

(** ** Dictionaries

    [contains d k] is [k in d] for the dictionaries that are only indexed. *)
Definition contains {V : Type} (d : gmap str V) (k : str) : bool :=
  match d !! k with Some _ => true | None => false end.

(** An insertion-ordered dictionary, for [session_cache]: Python iterates a
    [dict] in the order in which its keys were first inserted, and assigning
    to a key that is present keeps the key's position. *)
Abbreviation odict V := (list (str * V)).

Fixpoint odict_get {V : Type} (k : str) (d : odict V) : option V :=
  match d with
  | [] => None
  | (k', v) :: d' => if decide (k = k') then Some v else odict_get k d'
  end.

(** [d[k] = v]. *)
Fixpoint odict_set {V : Type} (k : str) (v : V) (d : odict V) : odict V :=
  match d with
  | [] => [(k, v)]
  | (k', v') :: d' =>
      if decide (k = k') then (k, v) :: d' else (k', v') :: odict_set k v d'
  end.

(** [del d[k]]; [None] is the [KeyError] of an absent key. *)
Fixpoint odict_del {V : Type} (k : str) (d : odict V) : option (odict V) :=
  match d with
  | [] => None
  | (k', v') :: d' =>
      if decide (k = k') then Some d'
      else match odict_del k d' with
           | Some d'' => Some ((k', v') :: d'')
           | None => None
           end
  end.

(** [next(iter(d))]; [None] is the [StopIteration] of an empty dictionary. *)
Definition odict_first {V : Type} (d : odict V) : option str :=
  match d with
  | [] => None
  | (k, _) :: _ => Some k
  end.

Definition odict_keys {V : Type} (d : odict V) : list str := map fst d.

(** ** numpy on one-dimensional float vectors

    An embedding is a vector of binary64 floats.  [np.dot] raises
    [ValueError] on vectors of different lengths and otherwise sums the
    products; [np.linalg.norm] is [sqrt(x.dot(x))].  The sums are taken left to
    right; numpy may associate them differently, which changes last digits
    only and none of the facts proved below (they use the comparisons of
    the results, or vectors whose products are exact). *)
Definition embedding : Type := list float.

Definition np_sum_products (a b : embedding) : float :=
  fold_left (fun acc p => (acc + fst p * snd p)%float) (combine a b) 0%float.

Definition np_dot (a b : embedding) : outcome float :=
  if Nat.eqb (length a) (length b) then Ret (np_sum_products a b)
  else Raise ValueError.

Definition np_linalg_norm (a : embedding) : float :=
  PrimFloat.sqrt (np_sum_products a a).

(** ** The manager *)

(** The value of [session_cache[query]]: a dict with the keys ['response']
    and ['timestamp']. *)
Record cache_data : Type := CacheData {
  response : str;
  timestamp : str
}.

(** An element of a session's context list: a dict with the keys ['query'],
    ['response'] and ['timestamp']. *)
Record turn : Type := Turn {
  turn_query : str;
  turn_response : str;
  turn_timestamp : str
}.

(** The attributes of a [SessionCacheManager].  [embedding_model] is the call
    [self.embedding_model.embed_documents([query])[0]] as a function of
    [query]: the provider is external, and may raise. *)
Record SessionCacheManager : Type := Manager {
  embedding_model : str -> outcome embedding;
  session_caches : gmap str (odict cache_data);
  session_embeddings : gmap str (gmap str embedding);
  session_contexts : gmap str (list turn);
  cache_threshold : float;
  max_session_cache_size : nat;
  max_context_length : nat
}.

Definition with_embedding_model (f : str -> outcome embedding)
    (s : SessionCacheManager) : SessionCacheManager :=
  Manager f (session_caches s) (session_embeddings s) (session_contexts s)
    (cache_threshold s) (max_session_cache_size s) (max_context_length s).

Definition with_session_caches (d : gmap str (odict cache_data))
    (s : SessionCacheManager) : SessionCacheManager :=
  Manager (embedding_model s) d (session_embeddings s) (session_contexts s)
    (cache_threshold s) (max_session_cache_size s) (max_context_length s).

Definition with_session_embeddings (d : gmap str (gmap str embedding))
    (s : SessionCacheManager) : SessionCacheManager :=
  Manager (embedding_model s) (session_caches s) d (session_contexts s)
    (cache_threshold s) (max_session_cache_size s) (max_context_length s).

Definition with_session_contexts (d : gmap str (list turn))
    (s : SessionCacheManager) : SessionCacheManager :=
  Manager (embedding_model s) (session_caches s) (session_embeddings s) d
    (cache_threshold s) (max_session_cache_size s) (max_context_length s).

(** [SessionCacheManager.__init__]. *)
Definition __init__ (model : str -> outcome embedding) : SessionCacheManager :=
  {| embedding_model := model;
     session_caches := ∅;
     session_embeddings := ∅;
     session_contexts := ∅;
     cache_threshold := 0.75%float;
     max_session_cache_size := 50;
     max_context_length := 10 |}.

(** ** Methods as state-and-exception computations *)

Definition M (A : Type) : Type :=
  SessionCacheManager -> outcome A * SessionCacheManager.

#[global] Instance M_ret : MRet M := fun A (a : A) s => (Ret a, s).

#[global] Instance M_bind : MBind M := fun A B (k : A -> M B) (m : M A) s =>
  match m s with
  | (Ret a, s') => k a s'
  | (Raise e, s') => (Raise e, s')
  end.

Definition raise {A : Type} (e : exn) : M A := fun s => (Raise e, s).

Definition get_self : M SessionCacheManager := fun s => (Ret s, s).

Definition modify (f : SessionCacheManager -> SessionCacheManager) : M unit :=
  fun s => (Ret tt, f s).

(** [try: body except Exception: handler]: the state reached when the
    exception was raised is the one the handler starts from; an exception that
    does not derive from [Exception] passes through. *)
Definition try_except {A : Type} (body : M A) (handler : exn -> M A) : M A :=
  fun s =>
    match body s with
    | (Ret a, s') => (Ret a, s')
    | (Raise e, s') =>
        if is_exception e then handler e s' else (Raise e, s')
    end.

Definition of_option {A : Type} (e : exn) (o : option A) : M A :=
  match o with Some a => mret a | None => raise e end.

(** [self.embedding_model.embed_documents([query])[0]]. *)
Definition embed_documents (query : str) : M embedding :=
  self ← get_self;
  match embedding_model self query with
  | Ret v => mret v
  | Raise e => raise e
  end.

(** The local variables [session_cache], [session_embeddings] and [context]
    of the methods are references to the objects stored under [session_id]
    in the manager's dictionaries: reading one reads the dictionary, and a
    mutation through one updates the dictionary at [session_id]. *)
Definition cache_of (session_id : str) : M (odict cache_data) :=
  self ← get_self; of_option KeyError (session_caches self !! session_id).

Definition embeddings_of (session_id : str) : M (gmap str embedding) :=
  self ← get_self; of_option KeyError (session_embeddings self !! session_id).

Definition context_of (session_id : str) : M (list turn) :=
  self ← get_self; of_option KeyError (session_contexts self !! session_id).

Definition put_cache (session_id : str) (c : odict cache_data) : M unit :=
  modify (fun s => with_session_caches (<[session_id := c]> (session_caches s)) s).

Definition put_embeddings (session_id : str) (e : gmap str embedding) : M unit :=
  modify (fun s =>
    with_session_embeddings (<[session_id := e]> (session_embeddings s)) s).

Definition put_context (session_id : str) (c : list turn) : M unit :=
  modify (fun s =>
    with_session_contexts (<[session_id := c]> (session_contexts s)) s).

(** [del session_cache[key]]. *)
Definition cache_delitem (session_id key : str) : M unit :=
  c ← cache_of session_id;
  c' ← of_option KeyError (odict_del key c);
  put_cache session_id c'.

(** [del session_embeddings[key]]. *)
Definition embeddings_delitem (session_id key : str) : M unit :=
  e ← embeddings_of session_id;
  match e !! key with
  | Some _ => put_embeddings session_id (delete key e)
  | None => raise KeyError
  end.

(** [session_cache[key] = data]. *)
Definition cache_setitem (session_id key : str) (data : cache_data) : M unit :=
  c ← cache_of session_id;
  put_cache session_id (odict_set key data c).

(** [session_embeddings[key] = v]. *)
Definition embeddings_setitem (session_id key : str) (v : embedding) : M unit :=
  e ← embeddings_of session_id;
  put_embeddings session_id (<[key := v]> e).

(** [_calculate_similarity]: the bare [except] turns any exception into
    [0.0].  The division is the one of [numpy.float64], which raises nothing:
    it returns an infinity or NaN where the divisor is zero. *)
Definition _calculate_similarity (embedding1 embedding2 : embedding) : float :=
  match np_dot embedding1 embedding2 with
  | Ret dot_product =>
      let norm1 := np_linalg_norm embedding1 in
      let norm2 := np_linalg_norm embedding2 in
      (dot_product / (norm1 * norm2))%float
  | Raise _ => 0%float
  end.

(** One iteration of the loop of [check_semantic_cache] over
    [session_cache.items()]; the accumulator is
    [(best_similarity, best_response)]. *)
Definition scan_step (threshold : float) (query_embedding : embedding)
    (session_embeddings : gmap str embedding)
    (best : float * option str) (item : str * cache_data)
    : float * option str :=
  let '(cached_query, cached_data) := item in
  match session_embeddings !! cached_query with
  | Some cached_embedding =>
      let similarity := _calculate_similarity query_embedding cached_embedding in
      if ((fst best <? similarity) && (threshold <=? similarity))%float
      then (similarity, Some (response cached_data))
      else best
  | None => best
  end.

Definition scan (threshold : float) (query_embedding : embedding)
    (session_embeddings : gmap str embedding)
    (session_cache : odict cache_data) : float * option str :=
  fold_left (scan_step threshold query_embedding session_embeddings)
    session_cache (0%float, None).

(** [if best_response: return best_response], then [return None]: an empty
    string is falsy, as [None] is. *)
Definition hit (best_response : option str) : option str :=
  match best_response with
  | Some r => if truthy r then Some r else None
  | None => None
  end.

Definition check_semantic_cache (query session_id : str) : M (option str) :=
  self ← get_self;
  if negb (truthy session_id) || negb (contains (session_caches self) session_id)
  then mret None
  else
    session_cache ← cache_of session_id;
    session_embeddings ← embeddings_of session_id;
    match session_cache with
    | [] => mret None
    | _ :: _ =>
        r ← try_except (e ← embed_documents query; mret (Some e))
                       (fun _ => mret None);
        match r with
        | None => mret None
        | Some query_embedding =>
            let '(_, best_response) :=
              scan (cache_threshold self) query_embedding session_embeddings
                   session_cache in
            mret (hit best_response)
        end
    end.

(** [now] is the value of [datetime.now().isoformat()] at the call. *)
Definition add_to_semantic_cache (query response session_id now : str)
    : M unit :=
  try_except
    (if negb (truthy session_id) then mret tt
     else
       self ← get_self;
       (if contains (session_caches self) session_id then mret tt
        else put_cache session_id [];; put_embeddings session_id ∅);;
       session_cache ← cache_of session_id;
       _ ← embeddings_of session_id;
       (if max_session_cache_size self <=? length session_cache
        then
          oldest_key ← of_option StopIteration (odict_first session_cache);
          cache_delitem session_id oldest_key;;
          embeddings_delitem session_id oldest_key
        else mret tt);;
       query_embedding ← embed_documents query;
       cache_setitem session_id query (CacheData response now);;
       embeddings_setitem session_id query query_embedding)
    (fun _ => mret tt).

Definition add_to_context (session_id query response now : str) : M unit :=
  try_except
    (if negb (truthy session_id) then mret tt
     else
       self ← get_self;
       (if contains (session_contexts self) session_id then mret tt
        else put_context session_id []);;
       context ← context_of session_id;
       put_context session_id (context ++ [Turn query response now]);;
       context ← context_of session_id;
       if max_context_length self <? length context
       then
         match context with
         | [] => raise IndexError
         | _ :: rest => put_context session_id rest
         end
       else mret tt)
    (fun _ => mret tt).

(** The literals of [get_context_for_query], as code points:
    "用户问: ", "AI答: ", "...", "当前问题: " and the newline. *)
Definition user_asked : str := [29992; 25143; 38382; 58; 32]%N.
Definition ai_answered : str := [65; 73; 31572; 58; 32]%N.
Definition ellipsis : str := [46; 46; 46]%N.
Definition current_question : str := [24403; 21069; 38382; 39064; 58; 32]%N.
Definition newline : str := [10]%N.

(** [context[-3:] if len(context) > 3 else context]. *)
Definition recent (context : list turn) : list turn :=
  if 3 <? length context then drop (length context - 3) context else context.

(** The two lines appended for one turn; [item['response'][:100]] is the
    first 100 code points. *)
Definition turn_lines (item : turn) : list str :=
  [user_asked ++ turn_query item;
   ai_answered ++ take 100 (turn_response item) ++ ellipsis].

Definition get_context_for_query (session_id current_query : str) : M str :=
  try_except
    (self ← get_self;
     if negb (truthy session_id)
        || negb (contains (session_contexts self) session_id)
     then mret current_query
     else
       context ← context_of session_id;
       match context with
       | [] => mret current_query
       | _ :: _ =>
           let recent_context := recent context in
           let context_parts :=
             flat_map turn_lines recent_context
             ++ [current_question ++ current_query] in
           mret (join newline context_parts)
       end)
    (fun _ => mret current_query).

(** The dict returned by [get_session_stats]. *)
Record stats : Type := Stats {
  total_sessions : nat;
  total_cached_queries : nat;
  total_contexts : nat;
  stats_cache_threshold : float;
  stats_max_session_cache_size : nat;
  stats_max_context_length : nat
}.

(** [sum(len(v) for v in d.values())]. *)
Definition sum_len {A : Type} (d : gmap str (list A)) : nat :=
  map_fold (fun _ v acc => acc + length v) 0 d.

Definition get_session_stats : M stats :=
  self ← get_self;
  mret {| total_sessions := size (session_caches self);
          total_cached_queries := sum_len (session_caches self);
          total_contexts := sum_len (session_contexts self);
          stats_cache_threshold := cache_threshold self;
          stats_max_session_cache_size := max_session_cache_size self;
          stats_max_context_length := max_context_length self |}.

(** [if k in d: del d[k]] on each of the three dictionaries. *)
Definition clear_session_cache (session_id : str) : M unit :=
  self ← get_self;
  (if contains (session_caches self) session_id
   then modify (fun s =>
          with_session_caches (delete session_id (session_caches s)) s)
   else mret tt);;
  self ← get_self;
  (if contains (session_embeddings self) session_id
   then modify (fun s =>
          with_session_embeddings (delete session_id (session_embeddings s)) s)
   else mret tt);;
  self ← get_self;
  (if contains (session_contexts self) session_id
   then modify (fun s =>
          with_session_contexts (delete session_id (session_contexts s)) s)
   else mret tt).

Definition clear_all_caches : M unit :=
  modify (fun s => with_session_caches ∅ s);;
  modify (fun s => with_session_embeddings ∅ s);;
  modify (fun s => with_session_contexts ∅ s).

(** ** Reachable states

    A call of a public method, with its arguments.  A manager is reachable
    when it results from [__init__] by calls of public methods; between two
    calls the external embedding provider may change its behaviour (it may
    start or stop failing). *)
Inductive call : Type :=
| CheckSemanticCache (query session_id : str)
| AddToSemanticCache (query response session_id now : str)
| AddToContext (session_id query response now : str)
| GetContextForQuery (session_id current_query : str)
| GetSessionStats
| ClearSessionCache (session_id : str)
| ClearAllCaches.

Definition exec (c : call) (s : SessionCacheManager) : SessionCacheManager :=
  match c with
  | CheckSemanticCache q sid => snd (check_semantic_cache q sid s)
  | AddToSemanticCache q r sid now => snd (add_to_semantic_cache q r sid now s)
  | AddToContext sid q r now => snd (add_to_context sid q r now s)
  | GetContextForQuery sid q => snd (get_context_for_query sid q s)
  | GetSessionStats => snd (get_session_stats s)
  | ClearSessionCache sid => snd (clear_session_cache sid s)
  | ClearAllCaches => snd (clear_all_caches s)
  end.

(** Whether the call returned to its caller, rather than raised. *)
Definition returns (c : call) (s : SessionCacheManager) : bool :=
  let ok {A : Type} (r : outcome A * SessionCacheManager) : bool :=
    match fst r with Ret _ => true | Raise _ => false end in
  match c with
  | CheckSemanticCache q sid => ok (check_semantic_cache q sid s)
  | AddToSemanticCache q r sid now => ok (add_to_semantic_cache q r sid now s)
  | AddToContext sid q r now => ok (add_to_context sid q r now s)
  | GetContextForQuery sid q => ok (get_context_for_query sid q s)
  | GetSessionStats => ok (get_session_stats s)
  | ClearSessionCache sid => ok (clear_session_cache sid s)
  | ClearAllCaches => ok (clear_all_caches s)
  end.

Inductive reachable : SessionCacheManager -> Prop :=
| reach_init (model : str -> outcome embedding) : reachable (__init__ model)
| reach_call (c : call) (s : SessionCacheManager) :
    reachable s -> reachable (exec c s)
| reach_provider (model : str -> outcome embedding) (s : SessionCacheManager) :
    reachable s -> reachable (with_embedding_model model s).

(** The state after a sequence of calls, oldest first. *)
Definition run (calls : list call) (s : SessionCacheManager)
    : SessionCacheManager :=
  fold_left (fun s c => exec c s) calls s.

(** * Part II: vocabulary of the specification

    Definitions used to state the properties; none of them is part of the
    program. *)

(** The cache entries of a session, in insertion order; a session without
    a cache has none. *)
Definition cache_entries (s : SessionCacheManager) (sid : str)
    : odict cache_data :=
  default [] (session_caches s !! sid).

(** The stored embeddings of a session. *)
Definition entry_embeddings (s : SessionCacheManager) (sid : str)
    : gmap str embedding :=
  default ∅ (session_embeddings s !! sid).

(** The similarity that the scan computes for a cache entry: defined when the
    entry has a stored embedding. *)
Definition similarity_of (q : embedding) (embs : gmap str embedding)
    (item : str * cache_data) : option float :=
  match embs !! fst item with
  | Some e => Some (_calculate_similarity q e)
  | None => None
  end.

(** [best_match thr q embs cache i item sim]: the entry [item], at position [i]
    of the scan, has similarity [sim] with the query; [sim] reaches the
    threshold; no entry of the session has a strictly higher similarity; and
    no entry scanned before it has a similarity as high (among ties, it is the
    first scanned). *)
Definition best_match (thr : float) (q : embedding) (embs : gmap str embedding)
    (cache : odict cache_data) (i : nat) (item : str * cache_data)
    (sim : float) : Prop :=
  cache !! i = Some item
  ∧ similarity_of q embs item = Some sim
  ∧ (thr <=? sim)%float = true
  ∧ (∀ (j : nat) (item' : str * cache_data) (sim' : float),
       cache !! j = Some item' → similarity_of q embs item' = Some sim' →
       (sim <? sim')%float = false)
  ∧ (∀ (j : nat) (item' : str * cache_data) (sim' : float),
       j < i → cache !! j = Some item' →
       similarity_of q embs item' = Some sim' →
       (sim <=? sim')%float = false).

(** The invariant of the reachable managers: the configuration is the one set
    by [__init__]; a session has a cache exactly when it has embeddings; the
    keys of a cache are distinct and are those of its embeddings; the caches
    and contexts are within their bounds; the empty session id owns nothing. *)
Record wf (s : SessionCacheManager) : Prop := {
  wf_threshold : cache_threshold s = 0.75%float;
  wf_cache_size : max_session_cache_size s = 50;
  wf_context_length : max_context_length s = 10;
  wf_dom : ∀ sid : str, is_Some (session_caches s !! sid)
                        ↔ is_Some (session_embeddings s !! sid);
  wf_keys : ∀ (sid : str) (c : odict cache_data) (e : gmap str embedding),
    session_caches s !! sid = Some c → session_embeddings s !! sid = Some e →
    NoDup (odict_keys c) ∧ ∀ k : str, k ∈ odict_keys c ↔ is_Some (e !! k);
  wf_cache_bound : ∀ (sid : str) (c : odict cache_data),
    session_caches s !! sid = Some c → length c ≤ 50;
  wf_context_bound : ∀ (sid : str) (c : list turn),
    session_contexts s !! sid = Some c → length c ≤ 10;
  wf_sid_caches : session_caches s !! ([] : str) = None;
  wf_sid_contexts : session_contexts s !! ([] : str) = None
}.

(** A cache and its embeddings have the same keys, each once. *)
Definition synced (c : odict cache_data) (e : gmap str embedding) : Prop :=
  NoDup (odict_keys c) ∧ ∀ k : str, k ∈ odict_keys c ↔ is_Some (e !! k).

(** What a method that calls the provider under [except Exception] reports
    to its caller: a failure deriving from [Exception] is swallowed, any other
    passes through. *)
Definition swallowed (o : outcome embedding) : outcome unit :=
  match o with
  | Ret _ => Ret tt
  | Raise e => if is_exception e then Ret tt else Raise e
  end.

(** The cache and the embeddings of a session after the eviction step of
    [add_to_semantic_cache] (with the configured bound of 50). *)
Definition evicted_cache (c : odict cache_data) : odict cache_data :=
  if 50 <=? length c then tail c else c.

Definition evicted_embeddings (c : odict cache_data) (e : gmap str embedding)
    : gmap str embedding :=
  if 50 <=? length c
  then match odict_first c with Some k => delete k e | None => e end
  else e.

(** A context list after the trimming step of [add_to_context]. *)
Definition trimmed (n : nat) (context : list turn) : list turn :=
  if n <? length context then tail context else context.

(** A session holds state when it has a cache entry or a context turn. *)
Definition holds_state (s : SessionCacheManager) (sid : str) : Prop :=
  0 < length (cache_entries s sid)
  ∨ 0 < length (default [] (session_contexts s !! sid)).

#[global] Instance holds_state_dec (s : SessionCacheManager) (sid : str) :
  Decision (holds_state s sid).
Proof. unfold holds_state. apply _. Defined.

Definition sessions_with_state (s : SessionCacheManager) : gset str :=
  filter (holds_state s) (dom (session_caches s) ∪ dom (session_contexts s)).

(** ** Example managers *)

(** A provider that embeds every text as the vector [[1.0]], and one that
    always fails. *)
Definition always_one : str → outcome embedding := fun _ => Ret [1%float].

Definition always_fails : str → outcome embedding :=
  fun _ => Raise ProviderError.

(** One session, ["s"], with one cached query ["q"] whose answer is [r]. *)
Definition one_entry (r : str) : SessionCacheManager :=
  exec (AddToSemanticCache [113%N] r [115%N] [116%N]) (__init__ always_one).

(** A session filled by [n] insertions of distinct queries. *)
Definition fill (n : nat) : list call :=
  map (fun i => AddToSemanticCache [N.of_nat i] [114%N] [115%N] [116%N])
      (seq 0 n).

Definition full_session : SessionCacheManager :=
  run (fill 50) (__init__ always_one).

(** A session with ten, and one with four, context turns. *)
Definition ten_turns : SessionCacheManager :=
  run (map (fun i => AddToContext [115%N] [N.of_nat i] [114%N] [116%N])
           (seq 0 10))
      (__init__ always_one).

Definition four_turns : SessionCacheManager :=
  run (map (fun i => AddToContext [115%N] [N.of_nat i] [N.of_nat (i + 20)] [116%N])
           (seq 1 4))
      (__init__ always_one).

(** A session that has a context turn and no cache. *)
Definition context_only : SessionCacheManager :=
  exec (AddToContext [115%N] [113%N] [114%N] [116%N]) (__init__ always_one).

(** Two sessions, each with a cache entry and a context turn. *)
Definition two_sessions : SessionCacheManager :=
  run [AddToSemanticCache [113%N] [114%N] [115%N] [116%N];
       AddToContext [115%N] [113%N] [114%N] [116%N];
       AddToSemanticCache [113%N] [114%N] [118%N] [116%N];
       AddToContext [118%N] [113%N] [114%N] [116%N]]
      (__init__ always_one).

(** ** Further vocabulary *)

(** The last [n] elements of a list (all of them if it is shorter). *)
Definition last_n {A : Type} (n : nat) (l : list A) : list A :=
  drop (length l - n) l.

(** The context turns of a session, oldest first; a session without a
    context has none. *)
Definition context_turns (s : SessionCacheManager) (sid : str) : list turn :=
  default [] (session_contexts s !! sid).

(** The call that appends a turn, and the call that inserts a cache entry. *)
Definition append_call (sid : str) (t : turn) : call :=
  AddToContext sid (turn_query t) (turn_response t) (turn_timestamp t).

Definition insert_call (sid : str) (e : str * cache_data) : call :=
  AddToSemanticCache (fst e) (response (snd e)) sid (timestamp (snd e)).

(** The provider always fails and every cache of the manager is empty. *)
Definition caches_nothing (s : SessionCacheManager) : Prop :=
  (∀ q : str, ∃ e : exn, embedding_model s q = Raise e)
  ∧ ∀ (sid : str) (c : odict cache_data),
      session_caches s !! sid = Some c → c = [].

(** A provider that embeds the texts starting with "q" as [[1, 0]] and the
    others as [[0, 1]], and a session filled through it. *)
Definition by_first_char : str → outcome embedding :=
  fun q => match q with
           | 113%N :: _ => Ret [1; 0]%float
           | _ => Ret [0; 1]%float
           end.

Definition other_entry : SessionCacheManager :=
  exec (AddToSemanticCache [113%N] [114%N] [115%N] [116%N])
       (__init__ by_first_char).

(** A provider interrupted at every call: it raises outside [Exception]. *)
Definition interrupted : str → outcome embedding :=
  fun _ => Raise KeyboardInterrupt.

(** Whether the call reaches the provider and the provider raises outside
    [Exception].  [check_semantic_cache] reaches the provider when the session
    has a cache entry, [add_to_semantic_cache] when the session id is not
    empty; the other methods never do. *)
Definition interrupts (c : call) (s : SessionCacheManager) : bool :=
  let outside (q : str) : bool :=
    match embedding_model s q with
    | Ret _ => false
    | Raise e => negb (is_exception e)
    end in
  match c with
  | CheckSemanticCache q sid =>
      match cache_entries s sid with
      | [] => false
      | _ :: _ => outside q
      end
  | AddToSemanticCache q _ sid _ => truthy sid && outside q
  | _ => false
  end.

(** A provider that embeds every text as the zero vector, and a session
    filled through it. *)
Definition always_zero : str → outcome embedding :=
  fun _ => Ret [0; 0]%float.

Definition zero_entry : SessionCacheManager :=
  exec (AddToSemanticCache [113%N] [114%N] [115%N] [116%N])
       (__init__ always_zero).

(** * Part III: lemmas

    ** Ordering of binary64 floats

    The scan of the cache relies on [>] and [>=] of IEEE floats.  Away from
    NaN they form a total preorder; every comparison with NaN is false. *)
Module FloatOrder.

Local Ltac cmp_cases :=
  repeat match goal with
  | H : context [Z.compare ?x ?y] |- _ => destruct (Z.compare_spec x y)
  | |- context [Z.compare ?x ?y] => destruct (Z.compare_spec x y)
  | H : context [Pos.compare ?x ?y] |- _ => destruct (Pos.compare_spec x y)
  | |- context [Pos.compare ?x ?y] => destruct (Pos.compare_spec x y)
  end.

Local Ltac sf_crush :=
  cbn [SFcompare CompOpp];
  change PosDef.Pos.compare_cont with Pos.compare_cont;
  repeat match goal with
  | |- context [Pos.compare_cont Eq ?a ?b] =>
      change (Pos.compare_cont Eq a b) with (Pos.compare a b)
  end;
  repeat match goal with b : bool |- _ => destruct b end;
  try (intros; discriminate); try (intros; reflexivity);
  intros; cmp_cases; subst; cbn [CompOpp] in *;
  try discriminate; try reflexivity; try lia.

Lemma SFcompare_trans (a b c : spec_float) (x : comparison) :
  SFcompare a b = Some x -> SFcompare b c = Some x -> SFcompare a c = Some x.
Proof.
  destruct x, a, b, c; sf_crush.
Qed.

Lemma SFcompare_Eq_l (a b c : spec_float) (x : comparison) :
  SFcompare a b = Some Eq -> SFcompare b c = Some x -> SFcompare a c = Some x.
Proof.
  destruct x, a, b, c; sf_crush.
Qed.

Lemma SFcompare_Eq_r (a b c : spec_float) (x : comparison) :
  SFcompare a b = Some x -> SFcompare b c = Some Eq -> SFcompare a c = Some x.
Proof.
  destruct x, a, b, c; sf_crush.
Qed.

Lemma SFcompare_sym (a b : spec_float) (x : comparison) :
  SFcompare a b = Some x -> SFcompare b a = Some (CompOpp x).
Proof.
  destruct x, a, b; sf_crush.
Qed.

Lemma SFcompare_refl_None (a : spec_float) :
  SFcompare a a = Some Eq \/ SFcompare a a = None.
Proof.
  destruct a; sf_crush; auto.
Qed.

Lemma SFcompare_defined (a b : spec_float) :
  SFcompare a a = Some Eq -> SFcompare b b = Some Eq ->
  exists x, SFcompare a b = Some x.
Proof.
  destruct a, b; cbn [SFcompare]; intros; try discriminate; eauto.
Qed.

(** The same facts on the primitive comparisons [<?] and [<=?]. *)

Local Open Scope float_scope.

Local Ltac to_spec :=
  rewrite ?ltb_spec, ?leb_spec in *; unfold SFltb, SFleb in *.

Local Ltac by_cmp a b :=
  let c := fresh "c" in
  let E := fresh "E" in
  destruct (SFcompare (Prim2SF a) (Prim2SF b)) as [c|] eqn:E;
  [destruct c|]; try discriminate.

Lemma ltb_irrefl (x : float) : (x <? x) = false.
Proof.
  to_spec. destruct (SFcompare_refl_None (Prim2SF x)) as [-> | ->]; reflexivity.
Qed.

Lemma ltb_leb (x y : float) : (x <? y) = true -> (x <=? y) = true.
Proof.
  to_spec. by_cmp x y. reflexivity.
Qed.

Lemma leb_trans (x y z : float) :
  (x <=? y) = true -> (y <=? z) = true -> (x <=? z) = true.
Proof.
  to_spec. by_cmp x y; by_cmp y z; intros _ _.
  - now rewrite (SFcompare_Eq_l _ _ _ _ E E0).
  - now rewrite (SFcompare_Eq_l _ _ _ _ E E0).
  - now rewrite (SFcompare_Eq_r _ _ _ _ E E0).
  - now rewrite (SFcompare_trans _ _ _ _ E E0).
Qed.

Lemma ltb_leb_trans (x y z : float) :
  (x <? y) = true -> (y <=? z) = true -> (x <? z) = true.
Proof.
  to_spec. by_cmp x y; by_cmp y z; intros _ _.
  - now rewrite (SFcompare_Eq_r _ _ _ _ E E0).
  - now rewrite (SFcompare_trans _ _ _ _ E E0).
Qed.

Lemma leb_ltb_trans (x y z : float) :
  (x <=? y) = true -> (y <? z) = true -> (x <? z) = true.
Proof.
  to_spec. by_cmp x y; by_cmp y z; intros _ _.
  - now rewrite (SFcompare_Eq_l _ _ _ _ E E0).
  - now rewrite (SFcompare_trans _ _ _ _ E E0).
Qed.

Lemma ltb_trans (x y z : float) :
  (x <? y) = true -> (y <? z) = true -> (x <? z) = true.
Proof.
  intros H1 H2. apply (ltb_leb_trans x y z H1), ltb_leb, H2.
Qed.

(** A float that is [<=] or [>=] something is not NaN: it is [<=] itself. *)
Lemma leb_refl_l (x y : float) : (x <=? y) = true -> (x <=? x) = true.
Proof.
  to_spec. intros H.
  destruct (SFcompare_refl_None (Prim2SF x)) as [-> | E]; [reflexivity|].
  destruct (Prim2SF x), (Prim2SF y); cbn in E, H; discriminate.
Qed.

Lemma leb_refl_r (x y : float) : (x <=? y) = true -> (y <=? y) = true.
Proof.
  to_spec. intros H.
  destruct (SFcompare_refl_None (Prim2SF y)) as [-> | E]; [reflexivity|].
  destruct (Prim2SF x), (Prim2SF y); cbn in E, H; discriminate.
Qed.

(** Away from NaN the order is total. *)
Lemma leb_total (x y : float) :
  (x <=? x) = true -> (y <=? y) = true ->
  (x <? y) = false -> (y <=? x) = true.
Proof.
  to_spec. intros Hx Hy.
  assert (Ex : SFcompare (Prim2SF x) (Prim2SF x) = Some Eq).
  { destruct (SFcompare_refl_None (Prim2SF x)) as [E | E]; [exact E|].
    rewrite E in Hx. discriminate. }
  assert (Ey : SFcompare (Prim2SF y) (Prim2SF y) = Some Eq).
  { destruct (SFcompare_refl_None (Prim2SF y)) as [E | E]; [exact E|].
    rewrite E in Hy. discriminate. }
  destruct (SFcompare_defined _ _ Ex Ey) as [c E].
  rewrite E, (SFcompare_sym _ _ _ E). destruct c; cbn; congruence.
Qed.

Lemma leb_not_ltb (x y : float) : (x <=? y) = true -> (y <? x) = false.
Proof.
  intros H. destruct (y <? x) eqn:E; [|reflexivity].
  rewrite <- (ltb_irrefl x). symmetry. exact (leb_ltb_trans x y x H E).
Qed.

End FloatOrder.

Import FloatOrder.

(** ** Ordered dictionaries *)

Lemma odict_keys_set {V} (k : str) (v : V) (d : odict V) :
  odict_keys (odict_set k v d) =
  if decide (k ∈ odict_keys d) then odict_keys d else odict_keys d ++ [k].
Proof.
  induction d as [|[k' v'] d IH]; cbn.
  - rewrite decide_False; [done|]. apply not_elem_of_nil.
  - destruct (decide (k = k')) as [->|Hne]; cbn.
    + rewrite decide_True; [done|]. left.
    + unfold odict_keys in *. rewrite IH. destruct (decide (k ∈ map fst d)) as [Hin|Hin].
      * rewrite decide_True; [done|]. by right.
      * rewrite decide_False; [done|]. intros [?|?]%elem_of_cons; done.
Qed.

Lemma odict_set_length {V} (k : str) (v : V) (d : odict V) :
  length (odict_set k v d) =
  if decide (k ∈ odict_keys d) then length d else S (length d).
Proof.
  rewrite <- (length_map fst (odict_set k v d)). fold (odict_keys (odict_set k v d)).
  rewrite odict_keys_set. destruct (decide _); unfold odict_keys; rewrite ?length_app, length_map; cbn; lia.
Qed.

Lemma odict_set_length_le {V} (k : str) (v : V) (d : odict V) :
  length (odict_set k v d) ≤ S (length d).
Proof. rewrite odict_set_length. destruct (decide _); lia. Qed.

Lemma odict_set_fresh {V} (k : str) (v : V) (d : odict V) :
  k ∉ odict_keys d -> odict_set k v d = d ++ [(k, v)].
Proof.
  induction d as [|[k' v'] d IH]; cbn; [done|].
  intros Hin. rewrite decide_False.
  - rewrite IH; [done|]. intros ?. apply Hin. by right.
  - intros ->. apply Hin. left.
Qed.

(** ** What each method does to the manager *)

(** Unfolds the monadic primitives. *)
Ltac munfold :=
  repeat progress
    unfold mbind, M_bind, mret, M_ret, get_self, modify, raise, of_option,
      try_except, embed_documents, cache_of, embeddings_of, context_of,
      put_cache, put_embeddings, put_context, cache_delitem,
      embeddings_delitem, cache_setitem, embeddings_setitem,
      with_session_caches, with_session_embeddings, with_session_contexts,
      contains.

(** On a well-formed manager [add_to_semantic_cache] raises only what the
    provider raised outside [Exception]; it evicts first, and stores the new
    entry only when the embedding was computed. *)
Lemma add_to_semantic_cache_spec (s : SessionCacheManager)
    (q r sid now : str) :
  wf s → sid ≠ [] →
  ∃ s', add_to_semantic_cache q r sid now s
        = (swallowed (embedding_model s q), s')
    ∧ embedding_model s' = embedding_model s
    ∧ session_contexts s' = session_contexts s
    ∧ cache_threshold s' = cache_threshold s
    ∧ max_session_cache_size s' = max_session_cache_size s
    ∧ max_context_length s' = max_context_length s
    ∧ let c0 := default [] (session_caches s !! sid) in
      let e0 := default ∅ (session_embeddings s !! sid) in
      match embedding_model s q with
      | Ret v =>
          session_caches s'
          = <[sid := odict_set q (CacheData r now) (evicted_cache c0)]>
              (session_caches s)
          ∧ session_embeddings s'
            = <[sid := <[q := v]> (evicted_embeddings c0 e0)]>
                (session_embeddings s)
      | Raise _ =>
          session_caches s' = <[sid := evicted_cache c0]> (session_caches s)
          ∧ session_embeddings s'
            = <[sid := evicted_embeddings c0 e0]> (session_embeddings s)
      end.
Proof.
  intros Hwf Hsid.
  assert (Ht : truthy sid = true) by (by destruct sid).
  pose proof (wf_cache_size s Hwf) as Hn.
  unfold add_to_semantic_cache, evicted_cache, evicted_embeddings.
  munfold. rewrite Ht. cbn [negb].
  destruct (session_caches s !! sid) as [c0|] eqn:Hc.
  - destruct (wf_dom s Hwf sid) as [Hd _].
    destruct (Hd (mk_is_Some _ _ Hc)) as [e0 He].
    rewrite He. cbn [default from_option id].
    destruct (50 <=? length c0) eqn:Hlen.
    + destruct c0 as [|[k d] c']; [cbn in Hlen; discriminate|].
      destruct (wf_keys s Hwf sid _ _ Hc He) as [_ Hk].
      destruct (proj1 (Hk k)) as [v0 Hv0]; [left|].
      cbn -[Nat.leb] in Hlen.
      destruct (embedding_model s q) as [v|[]] eqn:Hq;
        repeat (cbn -[Nat.leb];
                rewrite ?Hn, ?Hlen, ?Hc, ?He, ?Hv0, ?Hq, ?lookup_insert_eq,
                  ?insert_insert_eq, ?decide_True by done);
        eexists; repeat split; done.
    + destruct (embedding_model s q) as [v|[]] eqn:Hq;
        repeat (cbn -[Nat.leb];
                rewrite ?Hn, ?Hlen, ?Hc, ?He, ?Hq, ?lookup_insert_eq,
                  ?insert_insert_eq);
        eexists; repeat split; cbn; by rewrite ?insert_id.
  - assert (He : session_embeddings s !! sid = None).
    { destruct (session_embeddings s !! sid) eqn:E; [|done].
      destruct (wf_dom s Hwf sid) as [_ Hd].
      destruct (Hd (mk_is_Some _ _ E)); congruence. }
    rewrite He.
    destruct (embedding_model s q) as [v|[]] eqn:Hq;
      repeat (cbn; rewrite ?Hn, ?Hq, ?lookup_insert_eq, ?insert_insert_eq);
      eexists; repeat split; done.
Qed.

Lemma add_to_semantic_cache_no_session (s : SessionCacheManager)
    (q r now : str) :
  add_to_semantic_cache q r [] now s = (Ret tt, s).
Proof. reflexivity. Qed.

Lemma add_to_context_spec (s : SessionCacheManager) (sid q r now : str) :
  sid ≠ [] →
  add_to_context sid q r now s
  = (Ret tt,
     with_session_contexts
       (<[sid := trimmed (max_context_length s)
                   (default [] (session_contexts s !! sid)
                    ++ [Turn q r now])]> (session_contexts s)) s).
Proof.
  intros Hsid.
  assert (Ht : truthy sid = true) by (by destruct sid).
  unfold add_to_context, trimmed. munfold. rewrite Ht. cbn [negb].
  destruct (session_contexts s !! sid) as [c0|] eqn:Hc;
    repeat (cbn -[Nat.ltb]; rewrite ?Hc, ?lookup_insert_eq, ?insert_insert_eq).
  - destruct (_ <? _); [|done].
    destruct (c0 ++ _) eqn:E; [by destruct c0|].
    cbn. by rewrite insert_insert_eq.
  - destruct (_ <? _); cbn; by rewrite ?insert_insert_eq.
Qed.

Lemma add_to_context_no_session (s : SessionCacheManager) (q r now : str) :
  add_to_context [] q r now s = (Ret tt, s).
Proof. reflexivity. Qed.

Lemma check_semantic_cache_state (s : SessionCacheManager) (q sid : str) :
  snd (check_semantic_cache q sid s) = s.
Proof.
  unfold check_semantic_cache. munfold.
  destruct (truthy sid); [|done]. cbn [negb orb].
  destruct (session_caches s !! sid) as [c|] eqn:Hc; cbn; [|done].
  rewrite Hc. cbn.
  destruct (session_embeddings s !! sid) as [e|]; cbn; [|done].
  destruct c as [|item c]; [done|].
  destruct (embedding_model s q) as [v|[]]; cbn; try done.
  match goal with |- context [let '(_, _) := ?x in _] => by destruct x end.
Qed.

Lemma check_semantic_cache_absent (s : SessionCacheManager)
    (query sid : str) :
  session_caches s !! sid = None →
  check_semantic_cache query sid s = (Ret None, s).
Proof.
  intros Hc. unfold check_semantic_cache. munfold. rewrite Hc.
  by destruct (truthy sid).
Qed.

Lemma get_context_for_query_state (s : SessionCacheManager) (sid q : str) :
  snd (get_context_for_query sid q s) = s.
Proof.
  unfold get_context_for_query. munfold.
  destruct (truthy sid); [|done]. cbn [negb orb].
  destruct (session_contexts s !! sid) as [c|] eqn:Hc; cbn; [|done].
  rewrite Hc. cbn.
  by destruct c.
Qed.

Lemma get_context_for_query_returns (s : SessionCacheManager)
    (sid current_query : str) :
  ∃ r : str, fst (get_context_for_query sid current_query s) = Ret r.
Proof.
  unfold get_context_for_query. munfold.
  destruct (truthy sid); cbn [negb orb]; [|by eexists].
  destruct (session_contexts s !! sid) as [c|] eqn:Hc; cbn; [|by eexists].
  rewrite Hc. cbn. destruct c; by eexists.
Qed.

Lemma clear_session_cache_spec (s : SessionCacheManager) (sid : str) :
  clear_session_cache sid s
  = (Ret tt,
     with_session_contexts (delete sid (session_contexts s))
       (with_session_embeddings (delete sid (session_embeddings s))
          (with_session_caches (delete sid (session_caches s)) s))).
Proof.
  unfold clear_session_cache. munfold. cbn.
  destruct s as [f c e x t n m]. cbn.
  destruct (c !! sid) eqn:Hc; cbn;
    (destruct (e !! sid) eqn:He; cbn);
    (destruct (x !! sid) eqn:Hx; cbn);
    rewrite ?(delete_id c), ?(delete_id e), ?(delete_id x) by done; done.
Qed.

Lemma clear_all_caches_spec (s : SessionCacheManager) :
  clear_all_caches s
  = (Ret tt,
     with_session_contexts ∅
       (with_session_embeddings ∅ (with_session_caches ∅ s))).
Proof. reflexivity. Qed.

(** ** The invariant *)

Lemma synced_empty : synced [] ∅.
Proof.
  split; [constructor|]. intros k. rewrite lookup_empty. split.
  - intros []%elem_of_nil.
  - intros []%is_Some_None.
Qed.

Lemma synced_evicted (c : odict cache_data) (e : gmap str embedding) :
  synced c e → synced (evicted_cache c) (evicted_embeddings c e).
Proof.
  unfold evicted_cache, evicted_embeddings. destruct (50 <=? length c); [|done].
  destruct c as [|[k0 d] c]; [done|]. cbn. intros [Hnd Hk].
  apply NoDup_cons in Hnd as [Hk0 Hnd]. split; [done|].
  intros k. rewrite lookup_delete_is_Some, <- Hk. cbn. rewrite elem_of_cons.
  split.
  - intros Hin. split; [|by right]. by intros ->.
  - intros [Hne [?|?]]; done.
Qed.

Lemma synced_set (c : odict cache_data) (e : gmap str embedding)
    (k : str) (d : cache_data) (v : embedding) :
  synced c e → synced (odict_set k d c) (<[k := v]> e).
Proof.
  intros [Hnd Hk]. unfold synced. rewrite odict_keys_set. destruct (decide (k ∈ odict_keys c)) as [Hin|Hin].
  - split; [done|]. intros k'. rewrite lookup_insert_is_Some, <- Hk.
    split; [intros; destruct (decide (k = k')); auto|]. by intros [-> |[_ ?]].
  - split.
    + apply NoDup_app. split_and!; [done| |apply NoDup_singleton].
      intros x Hx Hx'%list_elem_of_singleton. by subst.
    + intros k'. rewrite lookup_insert_is_Some, <- Hk, elem_of_app, list_elem_of_singleton.
      split.
      * intros [?| ->]; [|by left]. destruct (decide (k = k')); auto.
      * intros [-> |[_ ?]]; auto.
Qed.

Lemma evicted_cache_length (c : odict cache_data) :
  length c ≤ 50 → length (evicted_cache c) ≤ 49.
Proof.
  unfold evicted_cache. destruct (50 <=? length c) eqn:E.
  - destruct c; cbn; lia.
  - apply Nat.leb_gt in E. lia.
Qed.

Lemma trimmed_length (n : nat) (c : list turn) (t : turn) :
  length c ≤ n → length (trimmed n (c ++ [t])) ≤ n.
Proof.
  unfold trimmed. intros Hle.
  destruct (Nat.ltb_spec n (length (c ++ [t]))) as [H|H]; [|done].
  destruct c as [|t0 c]; cbn in *; rewrite ?length_app in *; cbn in *; lia.
Qed.

Lemma wf_init (model : str → outcome embedding) : wf (__init__ model).
Proof.
  split; cbn; try done.
  - intros sid. by rewrite !lookup_empty.
Qed.

Lemma wf_keys_synced (s : SessionCacheManager) (sid : str) :
  wf s →
  synced (default [] (session_caches s !! sid))
         (default ∅ (session_embeddings s !! sid)).
Proof.
  intros Hwf. destruct (session_caches s !! sid) as [c|] eqn:Hc.
  - destruct (proj1 (wf_dom s Hwf sid) (mk_is_Some _ _ Hc)) as [e He].
    rewrite He. exact (wf_keys s Hwf sid c e Hc He).
  - destruct (session_embeddings s !! sid) as [e|] eqn:He.
    + destruct (proj2 (wf_dom s Hwf sid) (mk_is_Some _ _ He)) as [x Hx].
      by rewrite Hc in Hx.
    + apply synced_empty.
Qed.

Lemma wf_add_to_semantic_cache (s : SessionCacheManager) (q r sid now : str) :
  wf s → wf (snd (add_to_semantic_cache q r sid now s)).
Proof.
  intros Hwf. destruct (decide (sid = [])) as [->|Hsid]; [done|].
  destruct (add_to_semantic_cache_spec s q r sid now Hwf Hsid)
    as (s' & -> & Hm & Hx & Ht & Hn & Hl & Hs). cbn [snd].
  pose proof (wf_keys_synced s sid Hwf) as Hsync.
  assert (Hlen : length (default [] (session_caches s !! sid)) ≤ 50).
  { destruct (session_caches s !! sid) eqn:E; cbn; [|lia].
    by eapply wf_cache_bound. }
  set (c0 := default [] (session_caches s !! sid)) in *.
  set (e0 := default ∅ (session_embeddings s !! sid)) in *.
  assert (∃ c1 e1, session_caches s' = <[sid := c1]> (session_caches s)
                   ∧ session_embeddings s' = <[sid := e1]> (session_embeddings s)
                   ∧ synced c1 e1 ∧ length c1 ≤ 50) as (c1 & e1 & Hc1 & He1 & Hs1 & Hl1).
  { destruct (embedding_model s q) as [v|err]; destruct Hs as [-> ->];
      do 2 eexists; split_and!; try done.
    - by apply synced_set, synced_evicted.
    - pose proof (odict_set_length_le q (CacheData r now) (evicted_cache c0)).
      pose proof (evicted_cache_length c0 Hlen). lia.
    - by apply synced_evicted.
    - pose proof (evicted_cache_length c0 Hlen). lia. }
  split.
  - rewrite Ht. by apply wf_threshold.
  - rewrite Hn. by apply wf_cache_size.
  - rewrite Hl. by apply wf_context_length.
  - intros sid'. rewrite Hc1, He1.
    destruct (decide (sid = sid')) as [->|Hne].
    + rewrite !lookup_insert_eq. split; eauto.
    + rewrite !lookup_insert_ne by done. by apply wf_dom.
  - intros sid' c e. rewrite Hc1, He1.
    destruct (decide (sid = sid')) as [->|Hne].
    + rewrite !lookup_insert_eq. by intros [= <-] [= <-].
    + rewrite !lookup_insert_ne by done. by apply wf_keys.
  - intros sid' c. rewrite Hc1.
    destruct (decide (sid = sid')) as [->|Hne].
    + rewrite !lookup_insert_eq. by intros [= <-].
    + rewrite !lookup_insert_ne by done. by apply wf_cache_bound.
  - intros sid' c. rewrite Hx. by apply wf_context_bound.
  - rewrite Hc1, lookup_insert_ne by done. by apply wf_sid_caches.
  - rewrite Hx. by apply wf_sid_contexts.
Qed.

Lemma wf_add_to_context (s : SessionCacheManager) (sid q r now : str) :
  wf s → wf (snd (add_to_context sid q r now s)).
Proof.
  intros Hwf. destruct (decide (sid = [])) as [->|Hsid]; [done|].
  rewrite add_to_context_spec by done. cbn [snd].
  destruct Hwf as [Ht Hn Hl Hd Hk Hcb Hxb Hsc Hsx].
  split; cbn; try done.
  - intros sid' c. destruct (decide (sid = sid')) as [->|Hne].
    + rewrite lookup_insert_eq. intros [= <-]. rewrite Hl.
      apply trimmed_length. destruct (session_contexts s !! sid') eqn:E; cbn; [|lia].
      by eapply Hxb.
    + rewrite lookup_insert_ne by done. apply Hxb.
  - by rewrite lookup_insert_ne.
Qed.

Lemma wf_clear_session_cache (s : SessionCacheManager) (sid : str) :
  wf s → wf (snd (clear_session_cache sid s)).
Proof.
  intros [Ht Hn Hl Hd Hk Hcb Hxb Hsc Hsx].
  rewrite clear_session_cache_spec. split; cbn; try done.
  - intros sid'. destruct (decide (sid = sid')) as [->|Hne].
    + rewrite !lookup_delete_eq. split; by intros []%is_Some_None.
    + rewrite !lookup_delete_ne by done. apply Hd.
  - intros sid' c e. destruct (decide (sid = sid')) as [->|Hne].
    + by rewrite !lookup_delete_eq.
    + rewrite !lookup_delete_ne by done. apply Hk.
  - intros sid' c. destruct (decide (sid = sid')) as [->|Hne].
    + by rewrite !lookup_delete_eq.
    + rewrite !lookup_delete_ne by done. apply Hcb.
  - intros sid' c. destruct (decide (sid = sid')) as [->|Hne].
    + by rewrite !lookup_delete_eq.
    + rewrite !lookup_delete_ne by done. apply Hxb.
  - destruct (decide (sid = [])) as [->|Hne].
    + by rewrite lookup_delete_eq.
    + by rewrite lookup_delete_ne.
  - destruct (decide (sid = [])) as [->|Hne].
    + by rewrite lookup_delete_eq.
    + by rewrite lookup_delete_ne.
Qed.

Lemma wf_clear_all_caches (s : SessionCacheManager) :
  wf s → wf (snd (clear_all_caches s)).
Proof.
  intros [Ht Hn Hl Hd Hk Hcb Hxb Hsc Hsx]. rewrite clear_all_caches_spec.
  split; cbn; try done; intros *; by rewrite ?lookup_empty.
Qed.

Lemma wf_exec (c : call) (s : SessionCacheManager) : wf s → wf (exec c s).
Proof.
  intros Hwf. destruct c; cbn [exec].
  - by rewrite check_semantic_cache_state.
  - by apply wf_add_to_semantic_cache.
  - by apply wf_add_to_context.
  - by rewrite get_context_for_query_state.
  - done.
  - by apply wf_clear_session_cache.
  - by apply wf_clear_all_caches.
Qed.

Lemma reachable_wf (s : SessionCacheManager) : reachable s → wf s.
Proof.
  induction 1 as [model|c s _ IH|model s _ IH].
  - apply wf_init.
  - by apply wf_exec.
  - destruct IH. by split.
Qed.

Lemma run_reachable (calls : list call) (s : SessionCacheManager) :
  reachable s → reachable (run calls s).
Proof.
  revert s. induction calls as [|c calls IH]; intros s Hs; [done|].
  cbn. apply IH. by apply reach_call.
Qed.

(** ** The scan of [check_semantic_cache] *)

Section Scan.

Context (thr : float) (q : embedding) (embs : gmap str embedding).

Lemma scan_step_eq
    (best : float * option str) (item : str * cache_data) :
  scan_step thr q embs best item
  = match similarity_of q embs item with
    | Some s =>
        if ((fst best <? s) && (thr <=? s))%float
        then (s, Some (response (snd item)))
        else best
    | None => best
    end.
Proof.
  destruct item as [k d]. unfold scan_step, similarity_of. cbn [fst snd].
  by destruct (embs !! k).
Qed.

(** The loop invariant: from the accumulator [(b0, r0)], either no entry
    updates it, or it ends at the best match of the scanned entries. *)
Lemma scan_from
    (cache : odict cache_data) (b0 : float) (r0 : option str) :
  let res := fold_left (scan_step thr q embs) cache (b0, r0) in
  (res = (b0, r0)
   ∧ ∀ (j : nat) (item : str * cache_data) (s : float),
       cache !! j = Some item → similarity_of q embs item = Some s →
       ((b0 <? s) && (thr <=? s))%float = false)
  ∨ (∃ (i : nat) (item : str * cache_data) (s : float),
       best_match thr q embs cache i item s
       ∧ (b0 <? s)%float = true
       ∧ res = (s, Some (response (snd item)))).
Proof.
  revert b0 r0. induction cache as [|x cache IH]; intros b0 r0; cbn zeta.
  { left. split; [done|]. intros j item s Hj. by rewrite lookup_nil in Hj. }
  cbn [fold_left]. rewrite scan_step_eq. cbn [fst].
  destruct (similarity_of q embs x) as [sx|] eqn:Hx.
  2:{ destruct (IH b0 r0) as [[Hres Hall]|(i & item & s & Hbest & Hb0 & Hres)].
      - left. split; [done|]. intros [|j] item s Hj Hs; cbn in Hj.
        + injection Hj as <-. by rewrite Hx in Hs.
        + by eapply Hall.
      - right. exists (S i), item, s. split; [|done].
        destruct Hbest as (Hi & Hsi & Hthr & Hmax & Hfirst).
        split_and!; try done.
        + intros [|j] item' s' Hj Hs'; cbn in Hj; [|by eapply Hmax].
          injection Hj as <-. by rewrite Hx in Hs'.
        + intros [|j] item' s' Hlt Hj Hs'; cbn in Hj.
          * injection Hj as <-. by rewrite Hx in Hs'.
          * eapply Hfirst; [|done..]. lia. }
  destruct ((b0 <? sx) && (thr <=? sx))%float eqn:Hup.
  - apply andb_true_iff in Hup as [Hlt Hge].
    destruct (IH sx (Some (response (snd x))))
      as [[Hres Hall]|(i & item & s & Hbest & Hb0 & Hres)].
    + right. exists 0, x, sx. split; [|done].
      split_and!; try done.
      * intros [|j] item' s' Hj Hs'; cbn in Hj.
        -- injection Hj as <-. rewrite Hx in Hs'. injection Hs' as <-.
           apply ltb_irrefl.
        -- specialize (Hall j item' s' Hj Hs').
           destruct (sx <? s')%float eqn:E; [|done].
           rewrite (leb_trans thr sx s' Hge (ltb_leb _ _ E)) in Hall. done.
      * intros j item' s' Hj. lia.
    + right. exists (S i), item, s. split_and!.
      * destruct Hbest as (Hi & Hsi & Hthr & Hmax & Hfirst).
        split_and!; try done.
        -- intros [|j] item' s' Hj Hs'; cbn in Hj; [|by eapply Hmax].
           injection Hj as <-. rewrite Hx in Hs'. injection Hs' as <-.
           apply leb_not_ltb, ltb_leb, Hb0.
        -- intros [|j] item' s' Hj' Hj Hs'; cbn in Hj.
           ++ injection Hj as <-. rewrite Hx in Hs'. injection Hs' as <-.
              destruct (s <=? sx)%float eqn:E; [|done].
              by rewrite (leb_not_ltb _ _ E) in Hb0.
           ++ eapply Hfirst; [|done..]. lia.
      * exact (ltb_trans _ _ _ Hlt Hb0).
      * done.
  - destruct (IH b0 r0) as [[Hres Hall]|(i & item & s & Hbest & Hb0 & Hres)].
    + left. split; [done|]. intros [|j] item s Hj Hs; cbn in Hj.
      * injection Hj as <-. rewrite Hx in Hs. by injection Hs as <-.
      * by eapply Hall.
    + right. exists (S i), item, s. split; [|done].
      destruct Hbest as (Hi & Hsi & Hthr & Hmax & Hfirst).
      assert (Hle : (s <=? sx)%float = false).
      { destruct (s <=? sx)%float eqn:E; [|done].
        rewrite (ltb_leb_trans _ _ _ Hb0 E), (leb_trans _ _ _ Hthr E) in Hup.
        done. }
      split_and!; try done.
      * intros [|j] item' s' Hj Hs'; cbn in Hj; [|by eapply Hmax].
        injection Hj as <-. rewrite Hx in Hs'. injection Hs' as <-.
        destruct (s <? sx)%float eqn:E; [|done].
        by rewrite (ltb_leb _ _ E) in Hle.
      * intros [|j] item' s' Hlt Hj Hs'; cbn in Hj.
        -- injection Hj as <-. rewrite Hx in Hs'. by injection Hs' as <-.
        -- eapply Hfirst; [|done..]. lia.
Qed.

Lemma best_match_unique (cache : odict cache_data)
    (i i' : nat) (item item' : str * cache_data) (s s' : float) :
  best_match thr q embs cache i item s →
  best_match thr q embs cache i' item' s' →
  i = i' ∧ item = item' ∧ s = s'.
Proof.
  intros (Hi & Hs & Hthr & Hmax & Hfirst) (Hi' & Hs' & Hthr' & Hmax' & Hfirst').
  assert (Hii : i = i').
  { destruct (Nat.lt_total i i') as [Hlt|[Heq|Hlt]]; [|done|].
    - pose proof (Hfirst' i item s Hlt Hi Hs) as H1.
      pose proof (Hmax i' item' s' Hi' Hs') as H2.
      rewrite (leb_total s s' (leb_refl_r _ _ Hthr) (leb_refl_r _ _ Hthr') H2)
        in H1. done.
    - pose proof (Hfirst i' item' s' Hlt Hi' Hs') as H1.
      pose proof (Hmax' i item s Hi Hs) as H2.
      rewrite (leb_total s' s (leb_refl_r _ _ Hthr') (leb_refl_r _ _ Hthr) H2)
        in H1. done. }
  subst i'. rewrite Hi in Hi'. injection Hi' as <-.
  rewrite Hs in Hs'. by injection Hs' as <-.
Qed.

Lemma scan_spec
    (cache : odict cache_data) :
  (0 <? thr)%float = true →
  (snd (scan thr q embs cache) = None
   ∧ ∀ (j : nat) (item : str * cache_data) (s : float),
       cache !! j = Some item → similarity_of q embs item = Some s →
       (thr <=? s)%float = false)
  ∨ (∃ (i : nat) (item : str * cache_data) (s : float),
       best_match thr q embs cache i item s
       ∧ snd (scan thr q embs cache) = Some (response (snd item))).
Proof.
  intros Hthr. unfold scan.
  destruct (scan_from cache 0%float None)
    as [[-> Hall]|(i & item & s & Hbest & _ & ->)].
  - left. split; [done|]. intros j item s Hj Hs.
    specialize (Hall j item s Hj Hs).
    destruct (thr <=? s)%float eqn:E; [|done].
    by rewrite (ltb_leb_trans _ _ _ Hthr E) in Hall.
  - right. by exists i, item, s.
Qed.

End Scan.

Lemma check_semantic_cache_result (s : SessionCacheManager) (q sid : str) :
  wf s →
  fst (check_semantic_cache q sid s)
  = match session_caches s !! sid with
    | Some (item :: c) =>
        match embedding_model s q with
        | Ret qe =>
            Ret (hit (snd (scan (cache_threshold s) qe
                             (default ∅ (session_embeddings s !! sid))
                             (item :: c))))
        | Raise e => if is_exception e then Ret None else Raise e
        end
    | _ => Ret None
    end.
Proof.
  intros Hwf. unfold check_semantic_cache. munfold.
  destruct (decide (sid = [])) as [->|Hsid].
  { cbn. by rewrite (wf_sid_caches s Hwf). }
  assert (Ht : truthy sid = true) by (by destruct sid).
  rewrite Ht. cbn [negb orb].
  destruct (session_caches s !! sid) as [c|] eqn:Hc; cbn -[scan]; [|done].
  destruct (proj1 (wf_dom s Hwf _) (mk_is_Some _ _ Hc)) as [e He].
  rewrite Hc, He. cbn -[scan].
  destruct c as [|item c]; [done|].
  destruct (embedding_model s q) as [qe|[]]; cbn -[scan]; try done.
  by destruct (scan _ _ _ _).
Qed.

Lemma hit_not_empty (o : option str) : hit o ≠ Some [].
Proof. destruct o as [[|n r]|]; done. Qed.

(** The result of a lookup whose embedding was computed, on a well-formed
    manager. *)
Lemma check_semantic_cache_selects (s : SessionCacheManager)
    (query sid : str) (qe : embedding) :
  wf s → embedding_model s query = Ret qe →
  let cache := cache_entries s sid in
  let embs := entry_embeddings s sid in
  (∀ item : str * cache_data,
     item ∈ cache → is_Some (similarity_of qe embs item))
  ∧ (∀ (i : nat) (item : str * cache_data) (sim : float),
       best_match 0.75 qe embs cache i item sim →
       fst (check_semantic_cache query sid s)
       = Ret (if truthy (response (snd item))
              then Some (response (snd item)) else None))
  ∧ ((∀ (j : nat) (item : str * cache_data) (sim : float),
        cache !! j = Some item → similarity_of qe embs item = Some sim →
        (0.75 <=? sim)%float = false) →
     fst (check_semantic_cache query sid s) = Ret None)
  ∧ ((∃ (i : nat) (item : str * cache_data) (sim : float),
        best_match 0.75 qe embs cache i item sim)
     ∨ (∀ (j : nat) (item : str * cache_data) (sim : float),
          cache !! j = Some item → similarity_of qe embs item = Some sim →
          (0.75 <=? sim)%float = false)).
Proof.
  intros Hwf Hq. cbn zeta. unfold cache_entries, entry_embeddings.
  pose proof (wf_keys_synced s sid Hwf) as [_ Hsync].
  set (cache := default [] (session_caches s !! sid)) in *.
  set (embs := default ∅ (session_embeddings s !! sid)) in *.
  assert (Hres : fst (check_semantic_cache query sid s)
                 = Ret (match cache with
                        | [] => None
                        | _ :: _ => hit (snd (scan 0.75 qe embs cache))
                        end)).
  { rewrite check_semantic_cache_result by done.
    rewrite Hq, (wf_threshold s Hwf). unfold cache, embs.
    destruct (session_caches s !! sid) as [[|item c]|]; done. }
  split.
  { intros [k d] Hin. unfold similarity_of. cbn [fst].
    destruct (proj1 (Hsync k)) as [e He].
    - apply list_elem_of_fmap. by exists (k, d).
    - by rewrite He. }
  destruct (scan_spec 0.75 qe embs cache eq_refl)
    as [[Hnone Hall]|(i & item & sim & Hbest & Hsome)].
  - split_and!.
    + intros i item sim (Hi & Hs & Hthr & _).
      by rewrite (Hall i item sim Hi Hs) in Hthr.
    + intros _. rewrite Hres, Hnone. by destruct cache.
    + by right.
  - split_and!.
    + intros i' item' sim' Hbest'.
      destruct (best_match_unique _ _ _ _ _ _ _ _ _ _ Hbest' Hbest)
        as (_ & -> & _).
      rewrite Hres, Hsome. destruct Hbest as (Hi & _).
      destruct cache; [by rewrite lookup_nil in Hi|done].
    + intros Hall. destruct Hbest as (Hi & Hs & Hthr & _).
      by rewrite (Hall i item sim Hi Hs) in Hthr.
    + left. by exists i, item, sim.
Qed.

(** ** Facts about the example managers *)

Lemma one_entry_reachable (r : str) : reachable (one_entry r).
Proof. apply reach_call, reach_init. Qed.

Lemma one_entry_cache (r : str) :
  cache_entries (one_entry r) [115%N] = [([113%N], CacheData r [116%N])].
Proof. vm_compute. reflexivity. Qed.

Lemma one_entry_embeddings (r : str) :
  entry_embeddings (one_entry r) [115%N] !! [113%N] = Some [1%float].
Proof. vm_compute. reflexivity. Qed.

Lemma one_entry_best_match (r : str) :
  best_match 0.75 [1%float] (entry_embeddings (one_entry r) [115%N])
    (cache_entries (one_entry r) [115%N]) 0
    ([113%N], CacheData r [116%N]) 1.
Proof.
  assert (Hs : similarity_of [1%float] (entry_embeddings (one_entry r) [115%N])
                 ([113%N], CacheData r [116%N]) = Some 1%float).
  { unfold similarity_of. cbn [fst]. by rewrite one_entry_embeddings. }
  rewrite one_entry_cache. split_and!; try done.
  - intros [|j] item' sim' Hj Hs'; [|done].
    injection Hj as <-. rewrite Hs in Hs'. by injection Hs' as <-.
  - intros j item' sim' Hj. lia.
Qed.

Lemma full_session_reachable : reachable full_session.
Proof. apply run_reachable, reach_init. Qed.

Lemma full_session_cache :
  session_caches full_session !! [115%N]
  = Some (([0%N], CacheData [114%N] [116%N])
          :: tail (cache_entries full_session [115%N])).
Proof. vm_compute. reflexivity. Qed.

Lemma ten_turns_reachable : reachable ten_turns.
Proof. apply run_reachable, reach_init. Qed.

(** ** Cosine similarity *)

Lemma calculate_similarity_formula (a b : embedding) :
  length a = length b →
  _calculate_similarity a b
  = (np_sum_products a b / (np_linalg_norm a * np_linalg_norm b))%float.
Proof.
  intros H. unfold _calculate_similarity, np_dot. by rewrite H, Nat.eqb_refl.
Qed.

Lemma calculate_similarity_mismatch (a b : embedding) :
  length a ≠ length b → _calculate_similarity a b = 0%float.
Proof.
  intros H. unfold _calculate_similarity, np_dot.
  by destruct (Nat.eqb_spec (length a) (length b)).
Qed.

(** A quotient whose divisor is a product with a zero factor is an infinity or
    NaN, never zero. *)
Lemma div_by_zero_product_l (d m : float) :
  (d / (0 * m) =? 0)%float = false.
Proof.
  rewrite FloatAxioms.eqb_spec, FloatAxioms.div_spec, FloatAxioms.mul_spec.
  change (Prim2SF 0) with (S754_zero false).
  destruct (Prim2SF d) as [sd|sd| |sd md ed], (Prim2SF m) as [sm|sm| |sm mm em];
    try destruct sd; try destruct sm; reflexivity.
Qed.

Lemma div_by_zero_product_r (d m : float) :
  (d / (m * 0) =? 0)%float = false.
Proof.
  rewrite FloatAxioms.eqb_spec, FloatAxioms.div_spec, FloatAxioms.mul_spec.
  change (Prim2SF 0) with (S754_zero false).
  destruct (Prim2SF d) as [sd|sd| |sd md ed], (Prim2SF m) as [sm|sm| |sm mm em];
    try destruct sd; try destruct sm; reflexivity.
Qed.

(** X19.  For vectors of equal dimension of which one has norm zero, the
    similarity is never 0: it is NaN or an infinity. *)
Lemma calculate_similarity_zero_norm_never_zero (a b : embedding) :
  length a = length b →
  np_linalg_norm a = 0%float ∨ np_linalg_norm b = 0%float →
  (_calculate_similarity a b =? 0)%float = false.
Proof.
  intros Hlen Hz. rewrite calculate_similarity_formula by done.
  destruct Hz as [-> | ->].
  - apply div_by_zero_product_l.
  - apply div_by_zero_product_r.
Qed.

(** ** Statistics *)

Lemma sum_len_sum_list {A : Type} (d : gmap str (list A)) :
  sum_len d = sum_list (map (fun kv => length (snd kv)) (map_to_list d)).
Proof.
  unfold sum_len. rewrite map_fold_foldr.
  induction (map_to_list d) as [|[k v] l IH]; [done|].
  cbn. rewrite IH. lia.
Qed.

Lemma sum_len_delete {A : Type} (d : gmap str (list A)) (sid : str) :
  sum_len (delete sid d) = sum_len d - length (default [] (d !! sid)).
Proof.
  destruct (d !! sid) as [v|] eqn:Hv; cbn.
  - unfold sum_len.
    rewrite (map_fold_delete_L _ 0 sid v d); [lia| |done].
    intros. lia.
  - rewrite delete_id by done. lia.
Qed.

(** What an embedding failure deriving from [Exception] leaves intact: the
    lookup misses, the insertion returns, and below the capacity the session
    is unchanged. *)
Lemma embedding_failure_below_capacity (s : SessionCacheManager)
    (query response sid now : str) (err : exn) :
  reachable s → embedding_model s query = Raise err →
  is_exception err = true →
  fst (check_semantic_cache query sid s) = Ret None
  ∧ fst (add_to_semantic_cache query response sid now s) = Ret tt
  ∧ (length (cache_entries s sid) < 50 →
     let s' := exec (AddToSemanticCache query response sid now) s in
     cache_entries s' sid = cache_entries s sid
     ∧ entry_embeddings s' sid = entry_embeddings s sid).
Proof.
  intros Hr Hq Hexc. pose proof (reachable_wf s Hr) as Hwf. split_and!.
  - rewrite check_semantic_cache_result by done. rewrite Hq, Hexc.
    by destruct (session_caches s !! sid) as [[|??]|].
  - destruct (decide (sid = [])) as [->|Hsid]; [done|].
    destruct (add_to_semantic_cache_spec s query response sid now Hwf Hsid)
      as (s' & -> & _).
    by rewrite Hq; cbn; rewrite Hexc.
  - intros Hlt. cbn zeta. cbn [exec].
    destruct (decide (sid = [])) as [->|Hsid]; [done|].
    destruct (add_to_semantic_cache_spec s query response sid now Hwf Hsid)
      as (s' & -> & _ & _ & _ & _ & _ & Hs).
    rewrite Hq in Hs. destruct Hs as [Hc He]. cbn [snd].
    unfold cache_entries, entry_embeddings in *. rewrite Hc, He.
    rewrite !lookup_insert_eq. unfold evicted_cache, evicted_embeddings.
    destruct (Nat.leb_spec 50 (length (default [] (session_caches s !! sid))));
      [lia|done].
Qed.

(** The lookup does raise on a manager that is not reachable: with a cache
    and no embeddings for the session, the indexing raises [KeyError]. *)
Example check_semantic_cache_raises_when_out_of_sync :
  fst (check_semantic_cache [113%N] [115%N]
         (with_session_embeddings ∅ (one_entry [114%N])))
  = Raise KeyError.
Proof. by vm_compute. Qed.

(** ** More on ordered dictionaries and windows *)

Lemma odict_get_set_eq {V : Type} (k : str) (v : V) (d : odict V) :
  odict_get k (odict_set k v d) = Some v.
Proof.
  induction d as [|[k' v'] d IH]; cbn.
  - by rewrite decide_True.
  - destruct (decide (k = k')) as [->|Hne]; cbn.
    + by rewrite decide_True.
    + by rewrite decide_False.
Qed.

Lemma odict_get_set_ne {V : Type} (k k' : str) (v : V) (d : odict V) :
  k' ≠ k → odict_get k' (odict_set k v d) = odict_get k' d.
Proof.
  intros Hne. induction d as [|[k0 v0] d IH]; cbn.
  - by rewrite decide_False.
  - destruct (decide (k = k0)) as [->|Hk]; cbn.
    + by rewrite !decide_False.
    + by rewrite IH.
Qed.

Lemma odict_get_lookup {V : Type} (k : str) (v : V) (d : odict V) :
  odict_get k d = Some v → ∃ i : nat, d !! i = Some (k, v).
Proof.
  induction d as [|[k' v'] d IH]; cbn; [done|].
  destruct (decide (k = k')) as [->|Hne].
  - intros [= ->]. by exists 0.
  - intros H. destruct (IH H) as [i Hi]. by exists (S i).
Qed.

Lemma last_n_all {A : Type} (n : nat) (l : list A) :
  length l ≤ n → last_n n l = l.
Proof.
  intros H. unfold last_n. by replace (length l - n) with 0 by lia.
Qed.

Lemma last_n_length {A : Type} (n : nat) (l : list A) :
  length (last_n n l) = min n (length l).
Proof. unfold last_n. rewrite length_drop. lia. Qed.

Lemma last_n_app {A : Type} (n : nat) (l m : list A) :
  last_n n (last_n n l ++ m) = last_n n (l ++ m).
Proof.
  unfold last_n. rewrite !length_app, length_drop.
  destruct (Nat.le_gt_cases (length l) n) as [Hle|Hgt].
  - replace (length l - n) with 0 by lia. by rewrite Nat.sub_0_r.
  - replace (length l - (length l - n) + length m - n) with (length m) by lia.
    replace (length l + length m - n) with ((length l - n) + length m) by lia.
    rewrite <- drop_drop. f_equal.
    rewrite drop_app_le by lia. done.
Qed.

Lemma last_n_snoc {A : Type} (n : nat) (l : list A) (x : A) :
  last_n (S n) (l ++ [x]) = last_n n l ++ [x].
Proof.
  unfold last_n. rewrite length_app. cbn [length].
  replace (length l + 1 - S n) with (length l - n) by lia.
  rewrite drop_app_le by lia. done.
Qed.

Lemma last_n_last_n {A : Type} (a b : nat) (l : list A) :
  a ≤ b → last_n a (last_n b l) = last_n a l.
Proof.
  intros Hab. unfold last_n. rewrite length_drop, drop_drop. f_equal. lia.
Qed.

Lemma trimmed_last_n (c : list turn) (t : turn) :
  length c ≤ 10 → trimmed 10 (c ++ [t]) = last_n 10 (c ++ [t]).
Proof.
  intros Hle. unfold trimmed, last_n. rewrite length_app. cbn [length].
  destruct (Nat.ltb_spec 10 (length c + 1)) as [H|H].
  - replace (length c + 1 - 10) with 1 by lia. by destruct (c ++ [t]).
  - by replace (length c + 1 - 10) with 0 by lia.
Qed.

Lemma evicted_cache_last_n (c : odict cache_data) (x : str * cache_data) :
  length c ≤ 50 → evicted_cache c ++ [x] = last_n 50 (c ++ [x]).
Proof.
  intros Hle. unfold evicted_cache, last_n. rewrite length_app. cbn [length].
  destruct (Nat.leb_spec 50 (length c)) as [H|H].
  - replace (length c + 1 - 50) with 1 by lia.
    destruct c; [cbn in H; lia|done].
  - by replace (length c + 1 - 50) with 0 by lia.
Qed.

(** [sep.join] writes the parts in order, with [sep] after each part but the
    last. *)
Lemma join_cons (sep p : str) (ps : list str) :
  ps ≠ [] → join sep (p :: ps) = p ++ sep ++ join sep ps.
Proof. by destruct ps. Qed.

Lemma join_snoc (sep : str) (ls : list str) (final : str) :
  join sep (ls ++ [final]) = concat (map (fun l => l ++ sep) ls) ++ final.
Proof.
  induction ls as [|l ls IH]; [done|].
  rewrite <- app_comm_cons, join_cons by (by destruct ls).
  rewrite IH. cbn [map concat]. by rewrite <- !app_assoc.
Qed.

Lemma join_length (sep p : str) (ps : list str) :
  length (join sep (p :: ps))
  = length p + sum_list (map length ps) + length sep * length ps.
Proof.
  revert p. induction ps as [|p' ps IH]; intros p; [cbn; lia|].
  rewrite join_cons by done. rewrite !length_app, IH.
  cbn [map sum_list length]. unfold id. lia.
Qed.

Example join_three :
  join [44; 32]%N [[97]; [98; 99]; [100]]%N = [97; 44; 32; 98; 99; 44; 32; 100]%N.
Proof. reflexivity. Qed.

Lemma recent_last_n (context : list turn) : recent context = last_n 3 context.
Proof.
  unfold recent, last_n.
  destruct (Nat.ltb_spec 3 (length context)) as [H|H]; [done|].
  by replace (length context - 3) with 0 by lia.
Qed.

(** ** More on the methods *)

Lemma exec_embedding_model (c : call) (s : SessionCacheManager) :
  wf s → embedding_model (exec c s) = embedding_model s.
Proof.
  intros Hwf. destruct c as [q sid|q r sid now|sid q r now|sid q| |sid|];
    cbn [exec].
  - by rewrite check_semantic_cache_state.
  - destruct (decide (sid = [])) as [->|Hsid]; [done|].
    by destruct (add_to_semantic_cache_spec s q r sid now Hwf Hsid)
      as (s' & -> & Hm & _).
  - destruct (decide (sid = [])) as [->|Hsid]; [done|].
    by rewrite add_to_context_spec.
  - by rewrite get_context_for_query_state.
  - done.
  - by rewrite clear_session_cache_spec.
  - done.
Qed.

Lemma add_to_context_turns (s : SessionCacheManager)
    (sid query response now : str) :
  wf s → sid ≠ [] →
  context_turns (exec (AddToContext sid query response now) s) sid
  = last_n 10 (context_turns s sid ++ [Turn query response now]).
Proof.
  intros Hwf Hsid. cbn [exec]. rewrite add_to_context_spec by done.
  unfold context_turns. cbn [snd session_contexts with_session_contexts].
  rewrite lookup_insert_eq, (wf_context_length s Hwf). cbn [default from_option id].
  apply trimmed_last_n.
  destruct (session_contexts s !! sid) as [c|] eqn:Hc; cbn; [|lia].
  by apply (wf_context_bound s Hwf sid).
Qed.

Lemma add_fresh_entry (s : SessionCacheManager)
    (query response sid now : str) (qe : embedding) :
  wf s → sid ≠ [] →
  query ∉ odict_keys (cache_entries s sid) →
  embedding_model s query = Ret qe →
  cache_entries (exec (AddToSemanticCache query response sid now) s) sid
  = last_n 50 (cache_entries s sid ++ [(query, CacheData response now)]).
Proof.
  intros Hwf Hsid Hfresh Hq. cbn [exec].
  destruct (add_to_semantic_cache_spec s query response sid now Hwf Hsid)
    as (s' & -> & _ & _ & _ & _ & _ & Hs).
  rewrite Hq in Hs. destruct Hs as [Hc' _]. cbn [snd].
  unfold cache_entries in *. rewrite Hc', lookup_insert_eq.
  cbn [default from_option id].
  set (c0 := default [] (session_caches s !! sid)) in *.
  assert (Hle : length c0 ≤ 50).
  { unfold c0. destruct (session_caches s !! sid) as [c|] eqn:Hc; cbn; [|lia].
    by apply (wf_cache_bound s Hwf sid). }
  rewrite <- evicted_cache_last_n by done.
  apply odict_set_fresh. intros Hin. apply Hfresh.
  unfold evicted_cache in Hin. destruct (50 <=? length c0); [|done].
  destruct c0 as [|[k d] c0]; [done|]. cbn in *. by right.
Qed.

Lemma get_context_for_query_result (s : SessionCacheManager)
    (sid current_query : str) :
  wf s →
  get_context_for_query sid current_query s
  = (Ret match context_turns s sid with
         | [] => current_query
         | _ :: _ =>
             join newline
               (flat_map turn_lines (last_n 3 (context_turns s sid))
                ++ [current_question ++ current_query])
         end, s).
Proof.
  intros Hwf. unfold get_context_for_query, context_turns. munfold.
  destruct (decide (sid = [])) as [->|Hsid].
  { cbn. by rewrite (wf_sid_contexts s Hwf). }
  assert (Ht : truthy sid = true) by (by destruct sid).
  rewrite Ht. cbn [negb orb].
  destruct (session_contexts s !! sid) as [c|] eqn:Hc;
    cbn -[join recent last_n]; [|done].
  rewrite Hc. cbn -[join recent last_n].
  destruct c as [|t c]; [done|]. cbn -[join recent last_n].
  by rewrite recent_last_n.
Qed.

Lemma sum_len_bound {A : Type} (n : nat) (d : gmap str (list A)) :
  (∀ (k : str) (v : list A), d !! k = Some v → length v ≤ n) →
  sum_len d ≤ n * size d.
Proof.
  unfold sum_len.
  induction d as [|k v d Hk IH] using map_ind; intros Hall.
  { rewrite map_fold_empty. lia. }
  rewrite map_fold_insert_L by (done || (intros; lia)).
  rewrite map_size_insert_None by done.
  assert (length v ≤ n) by (apply (Hall k); by rewrite lookup_insert_eq).
  assert (map_fold (fun _ v acc => acc + length v) 0 d ≤ n * size d).
  { apply IH. intros k' v' Hk'. apply (Hall k').
    rewrite lookup_insert_ne; [done|]. intros ->. by rewrite Hk in Hk'. }
  lia.
Qed.

Lemma caches_nothing_exec (c : call) (s : SessionCacheManager) :
  wf s → caches_nothing s → caches_nothing (exec c s).
Proof.
  intros Hwf [Hfail Hempty]. split.
  { intros q. rewrite exec_embedding_model by done. apply Hfail. }
  destruct c as [q sid|q r sid now|sid q r now|sid q| |sid|]; cbn [exec].
  - by rewrite check_semantic_cache_state.
  - destruct (decide (sid = [])) as [->|Hsid]; [done|].
    destruct (add_to_semantic_cache_spec s q r sid now Hwf Hsid)
      as (s' & -> & _ & _ & _ & _ & _ & Hs). cbn [snd].
    destruct (Hfail q) as [e He]. rewrite He in Hs. destruct Hs as [Hc _].
    intros sid' c'. rewrite Hc.
    destruct (decide (sid = sid')) as [<-|Hne].
    + rewrite lookup_insert_eq. intros [= <-].
      destruct (session_caches s !! sid) as [c0|] eqn:Hc0; cbn; [|done].
      by rewrite (Hempty sid c0 Hc0).
    + rewrite lookup_insert_ne by done. apply Hempty.
  - destruct (decide (sid = [])) as [->|Hsid]; [done|].
    by rewrite add_to_context_spec.
  - by rewrite get_context_for_query_state.
  - done.
  - rewrite clear_session_cache_spec. cbn. intros sid' c' H.
    apply lookup_delete_Some in H as [_ H]. by apply (Hempty sid').
  - rewrite clear_all_caches_spec. cbn. intros sid' c'. by rewrite lookup_empty.
Qed.

Lemma caches_nothing_run (calls : list call) (s : SessionCacheManager) :
  reachable s → caches_nothing s → caches_nothing (run calls s).
Proof.
  revert s. induction calls as [|c calls IH]; intros s Hr Hn; [done|].
  cbn. apply IH; [by apply reach_call|].
  by apply caches_nothing_exec; [apply reachable_wf|].
Qed.

Lemma other_entry_embeddings :
  entry_embeddings other_entry [115%N] = {[ [113%N] := [1; 0]%float ]}.
Proof. by vm_compute. Qed.

(** ** Floating-point multiplication commutes *)

Lemma SFmul_comm (prec emax : Z) (x y : spec_float) :
  SFmul prec emax x y = SFmul prec emax y x.
Proof.
  destruct x as [sx|sx| |sx mx ex], y as [sy|sy| |sy my ey]; cbn [SFmul];
    rewrite ?(xorb_comm sx sy), ?(Pos.mul_comm mx my), ?(Z.add_comm ex ey);
    reflexivity.
Qed.

Lemma float_mul_comm (x y : float) : (x * y = y * x)%float.
Proof.
  apply Prim2SF_inj. rewrite !FloatAxioms.mul_spec. apply SFmul_comm.
Qed.

Lemma np_sum_products_from_comm (a b : embedding) (acc : float) :
  fold_left (fun acc p => (acc + fst p * snd p)%float) (combine a b) acc
  = fold_left (fun acc p => (acc + fst p * snd p)%float) (combine b a) acc.
Proof.
  revert b acc. induction a as [|x a IH]; intros [|y b] acc; try done.
  cbn. rewrite (float_mul_comm x y). apply IH.
Qed.

(** * Part IV: the claims *)

(** C1, as stated, fails: it is not the case that a lookup always returns the
    stored response of the best match.  With one cached query whose stored
    response is the empty string and a query of similarity 1, the lookup
    returns [None]. *)
Lemma check_semantic_cache_best_match_counterexample :
  ¬ (∀ (s : SessionCacheManager) (query sid : str) (qe : embedding)
       (i : nat) (item : str * cache_data) (sim : float),
       reachable s → embedding_model s query = Ret qe →
       best_match 0.75 qe (entry_embeddings s sid) (cache_entries s sid)
         i item sim →
       fst (check_semantic_cache query sid s)
       = Ret (Some (response (snd item)))).
Proof.
  intros H.
  specialize (H (one_entry []) [113%N] [115%N] [1%float] 0
                ([113%N], CacheData [] [116%N]) 1%float
                (one_entry_reachable []) eq_refl (one_entry_best_match [])).
  vm_compute in H. discriminate H.
Qed.

(** C1 (amended).  On a reachable manager, for a query whose embedding is
    computed: every entry of the session has a similarity; if an entry is the
    best match (similarity at least 0.75, none strictly higher in the session,
    first scanned among ties), the lookup returns its stored response when that
    response is not the empty string, and [None] when it is; if no entry
    reaches 0.75 (in particular if the session has no entries) the lookup
    returns [None]; and one of the two cases always applies. *)
Theorem check_semantic_cache_best_match (s : SessionCacheManager)
    (query sid : str) (qe : embedding) :
  reachable s → embedding_model s query = Ret qe →
  let cache := cache_entries s sid in
  let embs := entry_embeddings s sid in
  (∀ item : str * cache_data,
     item ∈ cache → is_Some (similarity_of qe embs item))
  ∧ (∀ (i : nat) (item : str * cache_data) (sim : float),
       best_match 0.75 qe embs cache i item sim →
       fst (check_semantic_cache query sid s)
       = Ret (if truthy (response (snd item))
              then Some (response (snd item)) else None))
  ∧ ((∀ (j : nat) (item : str * cache_data) (sim : float),
        cache !! j = Some item → similarity_of qe embs item = Some sim →
        (0.75 <=? sim)%float = false) →
     fst (check_semantic_cache query sid s) = Ret None)
  ∧ ((∃ (i : nat) (item : str * cache_data) (sim : float),
        best_match 0.75 qe embs cache i item sim)
     ∨ (∀ (j : nat) (item : str * cache_data) (sim : float),
          cache !! j = Some item → similarity_of qe embs item = Some sim →
          (0.75 <=? sim)%float = false)).
Proof.
  intros Hr Hq. by apply check_semantic_cache_selects; [apply reachable_wf|].
Qed.

Lemma check_semantic_cache_best_match_witness :
  reachable (one_entry [114%N])
  ∧ embedding_model (one_entry [114%N]) [113%N] = Ret [1%float]
  ∧ fst (check_semantic_cache [113%N] [115%N] (one_entry [114%N]))
    = Ret (Some [114%N]).
Proof.
  split; [apply one_entry_reachable|]. split; [reflexivity|].
  exact (proj1 (proj2 (check_semantic_cache_best_match
                         (one_entry [114%N]) [113%N] [115%N] [1%float]
                         (one_entry_reachable [114%N]) eq_refl))
           0 ([113%N], CacheData [114%N] [116%N]) 1%float
           (one_entry_best_match [114%N])).
Defined.

(** C2.  On a reachable manager (after any sequence of calls) every session
    has at most 50 cache entries.  When a session holds 50 entries and a query
    that is not among them is inserted with a computed embedding, the first
    entry in insertion order is removed, with its embedding, and the new entry
    is appended after the 49 others.  Lookups do not change the manager, so the
    order is by insertion, not by access. *)
Theorem cache_bound_fifo_eviction (s : SessionCacheManager) :
  reachable s →
  (∀ (sid : str) (cache : odict cache_data),
     session_caches s !! sid = Some cache → length cache ≤ 50)
  ∧ (∀ (query response sid now oldest : str) (d : cache_data)
       (rest : odict cache_data) (qe : embedding),
       session_caches s !! sid = Some ((oldest, d) :: rest) →
       length ((oldest, d) :: rest) = 50 →
       query ∉ odict_keys ((oldest, d) :: rest) →
       embedding_model s query = Ret qe →
       let s' := exec (AddToSemanticCache query response sid now) s in
       session_caches s' !! sid
       = Some (rest ++ [(query, CacheData response now)])
       ∧ session_embeddings s' !! sid
         = Some (<[query := qe]> (delete oldest (entry_embeddings s sid))))
  ∧ (∀ query sid : str, exec (CheckSemanticCache query sid) s = s).
Proof.
  intros Hr. pose proof (reachable_wf s Hr) as Hwf. split_and!.
  - apply (wf_cache_bound s Hwf).
  - intros query response sid now oldest d rest qe Hc Hlen Hfresh Hq.
    assert (Hsid : sid ≠ []).
    { intros ->. by rewrite (wf_sid_caches s Hwf) in Hc. }
    cbn zeta. cbn [exec].
    destruct (add_to_semantic_cache_spec s query response sid now Hwf Hsid)
      as (s' & -> & _ & _ & _ & _ & _ & Hs).
    rewrite Hq, Hc in Hs. cbn [default from_option id snd] in Hs.
    cbn [snd]. destruct Hs as [-> ->]. rewrite !lookup_insert_eq.
    unfold evicted_cache, evicted_embeddings, entry_embeddings.
    rewrite Hlen. cbn [Nat.leb tail odict_first].
    change (50 <=? 50) with true. cbv iota.
    split; [|done]. f_equal. apply odict_set_fresh.
    intros Hin. apply Hfresh. cbn. by right.
  - intros query sid. apply check_semantic_cache_state.
Qed.

Lemma cache_bound_fifo_eviction_witness :
  reachable full_session
  ∧ length (cache_entries full_session [115%N]) = 50
  ∧ session_caches
      (exec (AddToSemanticCache [999%N] [114%N] [115%N] [117%N]) full_session)
    !! [115%N]
    = Some (tail (cache_entries full_session [115%N])
            ++ [([999%N], CacheData [114%N] [117%N])]).
Proof.
  split; [apply full_session_reachable|]. split; [by vm_compute|].
  refine (proj1 (proj1 (proj2 (cache_bound_fifo_eviction full_session
                            full_session_reachable))
           [999%N] [114%N] [115%N] [117%N] [0%N] (CacheData [114%N] [116%N])
           (tail (cache_entries full_session [115%N])) [1%float]
           full_session_cache _ _ eq_refl)).
  - by vm_compute.
  - vm_compute. intros H. repeat (apply elem_of_cons in H as [H|H]; [discriminate H|]).
    by apply elem_of_nil in H.
Defined.

(** C3, at the input where the code departs from it.  The session holds 50
    entries and the provider fails: [add_to_semantic_cache] returns normally,
    but the oldest entry and its embedding are gone and 49 entries remain. *)
Theorem add_to_semantic_cache_failure_evicts :
  let s := with_embedding_model always_fails full_session in
  let s' := exec (AddToSemanticCache [999%N] [114%N] [115%N] [117%N]) s in
  embedding_model s [999%N] = Raise ProviderError
  ∧ fst (add_to_semantic_cache [999%N] [114%N] [115%N] [117%N] s) = Ret tt
  ∧ length (cache_entries s [115%N]) = 50
  ∧ odict_get [0%N] (cache_entries s [115%N])
    = Some (CacheData [114%N] [116%N])
  ∧ entry_embeddings s [115%N] !! [0%N] = Some [1%float]
  ∧ length (cache_entries s' [115%N]) = 49
  ∧ odict_get [0%N] (cache_entries s' [115%N]) = None
  ∧ entry_embeddings s' [115%N] !! [0%N] = None
  ∧ cache_entries s' [115%N] = tail (cache_entries s [115%N]).
Proof. vm_compute. repeat split; reflexivity. Qed.

(** C4.  On a reachable manager every session has at most 10 context turns.
    An append to a session that has 10 turns removes exactly the oldest turn
    and keeps the others, oldest first, followed by the new turn; an append to
    a shorter list only adds the new turn. *)
Theorem context_bound_drops_oldest (s : SessionCacheManager) :
  reachable s →
  (∀ (sid : str) (context : list turn),
     session_contexts s !! sid = Some context → length context ≤ 10)
  ∧ (∀ (sid query response now : str) (context : list turn),
       session_contexts s !! sid = Some context →
       let s' := exec (AddToContext sid query response now) s in
       session_contexts s' !! sid
       = Some (if decide (length context = 10)
               then drop 1 (context ++ [Turn query response now])
               else context ++ [Turn query response now])).
Proof.
  intros Hr. pose proof (reachable_wf s Hr) as Hwf. split.
  - apply (wf_context_bound s Hwf).
  - intros sid query response now context Hc.
    assert (Hsid : sid ≠ []).
    { intros ->. by rewrite (wf_sid_contexts s Hwf) in Hc. }
    cbn zeta. cbn [exec]. rewrite add_to_context_spec by done.
    cbn [snd session_contexts with_session_contexts].
    rewrite lookup_insert_eq, Hc, (wf_context_length s Hwf). f_equal.
    pose proof (wf_context_bound s Hwf sid context Hc) as Hle.
    unfold trimmed. cbn [default from_option id]. rewrite length_app. cbn [length].
    destruct (decide (length context = 10)) as [He|Hne].
    + rewrite He. cbn. by destruct (context ++ _).
    + destruct (Nat.ltb_spec 10 (length context + 1)); [lia|done].
Qed.

Lemma context_bound_drops_oldest_witness :
  reachable ten_turns
  ∧ session_contexts
      (exec (AddToContext [115%N] [10%N] [114%N] [117%N]) ten_turns)
    !! [115%N]
    = Some (map (fun i => Turn [N.of_nat i] [114%N] [116%N]) (seq 1 9)
            ++ [Turn [10%N] [114%N] [117%N]]).
Proof.
  split; [apply ten_turns_reachable|].
  exact (proj2 (context_bound_drops_oldest ten_turns ten_turns_reachable)
           [115%N] [10%N] [114%N] [117%N]
           (map (fun i => Turn [N.of_nat i] [114%N] [116%N]) (seq 0 10))
           eq_refl).
Defined.

(** C5.  On a reachable manager [get_context_for_query] leaves the manager
    unchanged and returns the current query itself when the session has no
    turns; otherwise it returns two lines for each of the last 3 turns (all of
    them if there are fewer), the first with the query of the turn and the
    second with the first 100 characters of its response, each line followed
    by a newline, and then the line with the current query, which no newline
    follows.  With more than 3 turns the result is a function of the last 3
    only: it is written out below, code point by code point. *)
Theorem get_context_for_query_window (s : SessionCacheManager)
    (sid current_query : str) :
  reachable s →
  let lines (item : turn) : list str :=
    [user_asked ++ turn_query item;
     ai_answered ++ take 100 (turn_response item) ++ ellipsis] in
  (default [] (session_contexts s !! sid) = [] →
   get_context_for_query sid current_query s = (Ret current_query, s))
  ∧ (∀ context : list turn,
       session_contexts s !! sid = Some context → context ≠ [] →
       get_context_for_query sid current_query s
       = (Ret (concat (map (fun line => line ++ newline)
                         (flat_map lines (drop (length context - 3) context)))
               ++ current_question ++ current_query),
          s))
  ∧ (∀ (older : list turn) (t1 t2 t3 : turn),
       session_contexts s !! sid = Some (older ++ [t1; t2; t3]) →
       get_context_for_query sid current_query s
       = (Ret (user_asked ++ turn_query t1 ++ newline
               ++ ai_answered ++ take 100 (turn_response t1) ++ ellipsis
               ++ newline
               ++ user_asked ++ turn_query t2 ++ newline
               ++ ai_answered ++ take 100 (turn_response t2) ++ ellipsis
               ++ newline
               ++ user_asked ++ turn_query t3 ++ newline
               ++ ai_answered ++ take 100 (turn_response t3) ++ ellipsis
               ++ newline
               ++ current_question ++ current_query), s)).
Proof.
  intros Hr. pose proof (reachable_wf s Hr) as Hwf. cbn zeta.
  assert (Hgen : ∀ context : list turn,
            session_contexts s !! sid = Some context → context ≠ [] →
            get_context_for_query sid current_query s
            = (Ret (concat (map (fun line => line ++ newline)
                              (flat_map turn_lines
                                 (drop (length context - 3) context)))
                    ++ current_question ++ current_query), s)).
  { intros context Hc Hne.
    assert (Hsid : truthy sid = true).
    { destruct sid; [|done]. by rewrite (wf_sid_contexts s Hwf) in Hc. }
    unfold get_context_for_query. munfold. rewrite Hsid, Hc. cbn [negb orb].
    cbn -[join recent Nat.sub]. rewrite Hc. cbn -[join recent Nat.sub].
    destruct context as [|t context]; [done|].
    cbn -[join recent Nat.sub]. rewrite join_snoc. do 5 f_equal. unfold recent.
    destruct (Nat.ltb_spec 3 (length (t :: context))) as [H|H]; [done|].
    cbn [length] in *. by replace (S (length context) - 3) with 0 by lia. }
  split_and!.
  - intros Hnil. unfold get_context_for_query. munfold.
    destruct (truthy sid); [|done]. cbn [negb orb].
    destruct (session_contexts s !! sid) as [c|] eqn:Hc; cbn; [|done].
    rewrite Hc. cbn in Hnil. by subst c.
  - apply Hgen.
  - intros older t1 t2 t3 Hc. rewrite (Hgen _ Hc) by (by destruct older).
    rewrite length_app. cbn [length].
    replace (length older + 3 - 3) with (length older) by lia.
    rewrite drop_app_length. cbn [flat_map turn_lines map concat app].
    by rewrite <- !app_assoc.
Qed.

Lemma get_context_for_query_window_witness :
  reachable four_turns
  ∧ get_context_for_query [115%N] [5%N] four_turns
    = (Ret [29992; 25143; 38382; 58; 32; 2; 10;
            65; 73; 31572; 58; 32; 22; 46; 46; 46; 10;
            29992; 25143; 38382; 58; 32; 3; 10;
            65; 73; 31572; 58; 32; 23; 46; 46; 46; 10;
            29992; 25143; 38382; 58; 32; 4; 10;
            65; 73; 31572; 58; 32; 24; 46; 46; 46; 10;
            24403; 21069; 38382; 39064; 58; 32; 5]%N,
       four_turns).
Proof.
  assert (Hr : reachable four_turns) by apply run_reachable, reach_init.
  split; [exact Hr|].
  exact (proj2 (proj2 (get_context_for_query_window four_turns [115%N] [5%N] Hr))
           [Turn [1%N] [21%N] [116%N]]
           (Turn [2%N] [22%N] [116%N]) (Turn [3%N] [23%N] [116%N])
           (Turn [4%N] [24%N] [116%N]) eq_refl).
Defined.

(** C6, at the input where the code departs from it.  The first vector has
    norm zero and the second norm one: the similarity is NaN, which is not
    zero. *)
Theorem calculate_similarity_zero_norm :
  np_linalg_norm [0; 0]%float = 0%float
  ∧ np_linalg_norm [1; 0]%float = 1%float
  ∧ _calculate_similarity [0; 0]%float [1; 0]%float = nan
  ∧ (_calculate_similarity [0; 0]%float [1; 0]%float =? 0)%float = false.
Proof. by vm_compute. Qed.

(** C7, as stated, fails: where the provider raises an exception that does
    not derive from [Exception] (a [KeyboardInterrupt], a [SystemExit], a
    cancellation), the handlers of lines 61 and 116, which are
    [except Exception], let it through.  On a new manager with such a provider
    [add_to_semantic_cache] raises. *)
Lemma public_operations_return_counterexample :
  ¬ (∀ (s : SessionCacheManager) (c : call), reachable s → returns c s = true).
Proof.
  intros H.
  specialize (H (__init__ interrupted)
                (AddToSemanticCache [113%N] [114%N] [115%N] [116%N])
                (reach_init _)).
  vm_compute in H. discriminate H.
Qed.

(** C7 (amended).  On a reachable manager a public method, with any
    arguments, raises exactly when it reaches the provider and the provider
    raises outside [Exception]; it then raises what the provider raised.  So
    [add_to_context], [get_context_for_query], [get_session_stats],
    [clear_session_cache] and [clear_all_caches] always return, and the two
    cache methods return whenever the provider returns or raises an exception
    deriving from [Exception], and whenever the session or the session id is
    absent. *)
Theorem public_operations_return (s : SessionCacheManager) (c : call) :
  reachable s →
  returns c s = negb (interrupts c s)
  ∧ (∀ (q sid : str) (e : exn),
       c = CheckSemanticCache q sid → interrupts c s = true →
       embedding_model s q = Raise e →
       fst (check_semantic_cache q sid s) = Raise e)
  ∧ (∀ (q r sid now : str) (e : exn),
       c = AddToSemanticCache q r sid now → interrupts c s = true →
       embedding_model s q = Raise e →
       fst (add_to_semantic_cache q r sid now s) = Raise e)
  ∧ ((∀ (q : str) (e : exn),
        embedding_model s q = Raise e → is_exception e = true) →
     returns c s = true).
Proof.
  intros Hr. pose proof (reachable_wf s Hr) as Hwf.
  assert (Hret : returns c s = negb (interrupts c s)).
  { destruct c as [q sid|q r sid now|sid q r now|sid q| |sid|];
      cbn [returns interrupts].
    - rewrite check_semantic_cache_result by done. unfold cache_entries.
      destruct (session_caches s !! sid) as [[|item c]|]; cbn; try done.
      by destruct (embedding_model s q) as [v|[]].
    - destruct (decide (sid = [])) as [->|Hsid]; [done|].
      assert (Ht : truthy sid = true) by (by destruct sid). rewrite Ht.
      destruct (add_to_semantic_cache_spec s q r sid now Hwf Hsid)
        as (s' & -> & _).
      by destruct (embedding_model s q) as [v|[]].
    - destruct (decide (sid = [])) as [->|Hsid]; [done|].
      by rewrite add_to_context_spec.
    - by destruct (get_context_for_query_returns s sid q) as [r ->].
    - done.
    - by rewrite clear_session_cache_spec.
    - done. }
  split_and!; [done| | |].
  - intros q sid e -> Hi Hq. cbn [interrupts] in Hi.
    rewrite check_semantic_cache_result by done. unfold cache_entries in Hi.
    destruct (session_caches s !! sid) as [[|item c]|]; cbn in Hi; try done.
    rewrite Hq in Hi |- *. by destruct (is_exception e).
  - intros q r sid now e -> Hi Hq. cbn [interrupts] in Hi.
    apply andb_prop in Hi as [Ht Hi].
    assert (Hsid : sid ≠ []) by (by intros ->).
    destruct (add_to_semantic_cache_spec s q r sid now Hwf Hsid)
      as (s' & -> & _).
    rewrite Hq in Hi |- *. cbn. by destruct (is_exception e).
  - intros Hexc. rewrite Hret.
    destruct c as [q sid|q r sid now|sid q r now|sid q| |sid|];
      cbn [interrupts]; try done.
    + destruct (cache_entries s sid); [done|].
      destruct (embedding_model s q) as [v|e] eqn:Hq; [done|].
      by rewrite (Hexc q e Hq).
    + destruct (embedding_model s q) as [v|e] eqn:Hq;
        [by rewrite andb_false_r|].
      by rewrite (Hexc q e Hq), andb_false_r.
Qed.

Lemma public_operations_return_witness :
  reachable (with_embedding_model always_fails full_session)
  ∧ returns (AddToSemanticCache [999%N] [114%N] [115%N] [117%N])
      (with_embedding_model always_fails full_session) = true
  ∧ returns (CheckSemanticCache [999%N] [115%N])
      (with_embedding_model always_fails full_session) = true
  ∧ reachable (with_embedding_model interrupted full_session)
  ∧ fst (check_semantic_cache [999%N] [115%N]
           (with_embedding_model interrupted full_session))
    = Raise KeyboardInterrupt.
Proof.
  assert (Hr : reachable (with_embedding_model always_fails full_session))
    by apply reach_provider, full_session_reachable.
  assert (Hi : reachable (with_embedding_model interrupted full_session))
    by apply reach_provider, full_session_reachable.
  assert (Hexc : ∀ (q : str) (e : exn),
            always_fails q = Raise e → is_exception e = true)
    by (by intros q e [= <-]).
  split; [exact Hr|]. split; [|split; [|split; [exact Hi|]]].
  - exact (proj2 (proj2 (proj2 (public_operations_return _
             (AddToSemanticCache [999%N] [114%N] [115%N] [117%N]) Hr))) Hexc).
  - exact (proj2 (proj2 (proj2 (public_operations_return _
             (CheckSemanticCache [999%N] [115%N]) Hr))) Hexc).
  - refine (proj1 (proj2 (public_operations_return _
              (CheckSemanticCache [999%N] [115%N]) Hi))
              [999%N] [115%N] KeyboardInterrupt eq_refl _ eq_refl).
    by vm_compute.
Defined.

(** C8, as stated, fails: [total_sessions] is not the number of sessions that
    hold state.  After one [add_to_context] on a new manager a session holds a
    turn and [total_sessions] is 0. *)
Lemma get_session_stats_counterexample :
  ¬ (∀ s : SessionCacheManager,
       reachable s →
       ∃ st : stats,
         fst (get_session_stats s) = Ret st
         ∧ total_sessions st = size (sessions_with_state s)).
Proof.
  intros H.
  destruct (H context_only (reach_call _ _ (reach_init _))) as (st & Hst & Hn).
  injection Hst as <-. vm_compute in Hn. discriminate Hn.
Qed.

(** C8 (amended).  On a reachable manager [get_session_stats] leaves the
    manager unchanged and returns: as [total_sessions] the number of sessions
    that have a semantic cache (among them every session with a cache entry);
    as [total_cached_queries] and [total_contexts] the sums of the numbers of
    cache entries and of context turns over the sessions; and the constants
    0.75, 50 and 10. *)
Theorem get_session_stats_counts (s : SessionCacheManager) :
  reachable s →
  ∃ st : stats,
    get_session_stats s = (Ret st, s)
    ∧ total_sessions st = size (dom (session_caches s))
    ∧ total_cached_queries st
      = sum_list (map (fun kv => length (snd kv))
                    (map_to_list (session_caches s)))
    ∧ total_contexts st
      = sum_list (map (fun kv => length (snd kv))
                    (map_to_list (session_contexts s)))
    ∧ stats_cache_threshold st = 0.75%float
    ∧ stats_max_session_cache_size st = 50
    ∧ stats_max_context_length st = 10
    ∧ (∀ sid : str, 0 < length (cache_entries s sid) →
                    sid ∈ dom (session_caches s)).
Proof.
  intros Hr. pose proof (reachable_wf s Hr) as Hwf.
  eexists. split; [reflexivity|]. cbn. split_and!.
  - by rewrite size_dom.
  - apply sum_len_sum_list.
  - apply sum_len_sum_list.
  - apply (wf_threshold s Hwf).
  - apply (wf_cache_size s Hwf).
  - apply (wf_context_length s Hwf).
  - intros sid. unfold cache_entries. rewrite elem_of_dom.
    destruct (session_caches s !! sid); cbn; [eauto|lia].
Qed.

Lemma get_session_stats_counts_witness :
  reachable context_only
  ∧ ∃ st : stats,
      get_session_stats context_only = (Ret st, context_only)
      ∧ total_sessions st = size (dom (session_caches context_only))
      ∧ total_cached_queries st
        = sum_list (map (fun kv => length (snd kv))
                      (map_to_list (session_caches context_only)))
      ∧ total_contexts st
        = sum_list (map (fun kv => length (snd kv))
                      (map_to_list (session_contexts context_only)))
      ∧ stats_cache_threshold st = 0.75%float
      ∧ stats_max_session_cache_size st = 50
      ∧ stats_max_context_length st = 10
      ∧ (∀ sid : str, 0 < length (cache_entries context_only sid) →
                      sid ∈ dom (session_caches context_only)).
Proof.
  assert (Hr : reachable context_only) by apply reach_call, reach_init.
  split; [exact Hr|]. exact (get_session_stats_counts context_only Hr).
Defined.

(** C9.  [clear_session_cache] returns normally; afterwards the session has
    no cache, no embeddings and no context; every other session is unchanged;
    every lookup in the session returns [None]; the statistics are those of
    before minus the counts of the session; and for a session that owns
    nothing the manager is unchanged. *)
Theorem clear_session_cache_frame (s : SessionCacheManager) (sid : str) :
  let s' := exec (ClearSessionCache sid) s in
  fst (clear_session_cache sid s) = Ret tt
  ∧ session_caches s' !! sid = None
  ∧ session_embeddings s' !! sid = None
  ∧ session_contexts s' !! sid = None
  ∧ (∀ sid' : str, sid' ≠ sid →
       session_caches s' !! sid' = session_caches s !! sid'
       ∧ session_embeddings s' !! sid' = session_embeddings s !! sid'
       ∧ session_contexts s' !! sid' = session_contexts s !! sid')
  ∧ (∀ query : str, check_semantic_cache query sid s' = (Ret None, s'))
  ∧ (∀ st st' : stats,
       fst (get_session_stats s) = Ret st →
       fst (get_session_stats s') = Ret st' →
       total_sessions st'
       = total_sessions st
         - match session_caches s !! sid with Some _ => 1 | None => 0 end
       ∧ total_cached_queries st'
         = total_cached_queries st - length (cache_entries s sid)
       ∧ total_contexts st'
         = total_contexts st
           - length (default [] (session_contexts s !! sid)))
  ∧ (session_caches s !! sid = None → session_embeddings s !! sid = None →
     session_contexts s !! sid = None → s' = s).
Proof.
  cbn zeta. cbn [exec]. rewrite clear_session_cache_spec. cbn [fst snd].
  set (s' := with_session_contexts _ _).
  assert (Hc : session_caches s' = delete sid (session_caches s)) by done.
  assert (He : session_embeddings s' = delete sid (session_embeddings s))
    by done.
  assert (Hx : session_contexts s' = delete sid (session_contexts s)) by done.
  split_and!; try done.
  - by rewrite Hc, lookup_delete_eq.
  - by rewrite He, lookup_delete_eq.
  - by rewrite Hx, lookup_delete_eq.
  - intros sid' Hne. rewrite Hc, He, Hx. by rewrite !lookup_delete_ne.
  - intros query. apply check_semantic_cache_absent.
    by rewrite Hc, lookup_delete_eq.
  - intros st st' [= <-] [= <-]. cbn [total_sessions total_cached_queries
      total_contexts]. split_and!.
    + rewrite map_size_delete.
      destruct (session_caches s !! sid); cbn; lia.
    + apply sum_len_delete.
    + apply sum_len_delete.
  - intros H1 H2 H3. unfold s'. rewrite !delete_id by done. by destruct s.
Qed.

Lemma clear_session_cache_frame_witness :
  ([118%N] : str) ≠ [115%N]
  ∧ session_caches (exec (ClearSessionCache [115%N]) two_sessions) !! [118%N]
    = session_caches two_sessions !! [118%N]
  ∧ session_embeddings (exec (ClearSessionCache [115%N]) two_sessions)
    !! [118%N]
    = session_embeddings two_sessions !! [118%N]
  ∧ session_contexts (exec (ClearSessionCache [115%N]) two_sessions) !! [118%N]
    = session_contexts two_sessions !! [118%N].
Proof.
  assert (Hne : ([118%N] : str) ≠ [115%N]) by discriminate.
  split; [exact Hne|].
  exact (proj1 (proj2 (proj2 (proj2 (proj2
           (clear_session_cache_frame two_sessions [115%N])))))
           [118%N] Hne).
Defined.

(** C10.  A lookup never returns the empty string; and on a reachable manager,
    when the best match has an empty stored response, the lookup returns
    [None]. *)
Theorem check_semantic_cache_never_empty (s : SessionCacheManager)
    (query sid : str) :
  fst (check_semantic_cache query sid s) ≠ Ret (Some [])
  ∧ (reachable s →
     ∀ (qe : embedding) (i : nat) (item : str * cache_data) (sim : float),
       embedding_model s query = Ret qe →
       best_match 0.75 qe (entry_embeddings s sid) (cache_entries s sid)
         i item sim →
       response (snd item) = [] →
       fst (check_semantic_cache query sid s) = Ret None).
Proof.
  split.
  - unfold check_semantic_cache. munfold.
    destruct (truthy sid); [|done]. cbn [negb orb].
    destruct (session_caches s !! sid) as [c|] eqn:Hc; cbn -[scan]; [|done].
    rewrite Hc. cbn -[scan].
    destruct (session_embeddings s !! sid) as [e|]; cbn -[scan]; [|done].
    destruct c as [|item c]; [done|].
    destruct (embedding_model s query) as [v|[]]; cbn -[scan]; try done.
    destruct (scan _ _ _ _) as [b o]. cbn. intros [= H].
    by apply hit_not_empty in H.
  - intros Hr qe i item sim Hq Hbest Hempty.
    destruct (check_semantic_cache_selects s query sid qe
                (reachable_wf s Hr) Hq) as (_ & Hsel & _).
    rewrite (Hsel i item sim Hbest), Hempty. done.
Qed.

Lemma check_semantic_cache_never_empty_witness :
  reachable (one_entry [])
  ∧ embedding_model (one_entry []) [113%N] = Ret [1%float]
  ∧ fst (check_semantic_cache [113%N] [115%N] (one_entry [])) = Ret None.
Proof.
  split; [apply one_entry_reachable|]. split; [reflexivity|].
  exact (proj2 (check_semantic_cache_never_empty (one_entry []) [113%N] [115%N])
           (one_entry_reachable []) [1%float] 0
           ([113%N], CacheData [] [116%N]) 1%float eq_refl
           (one_entry_best_match []) eq_refl).
Defined.

(** * Part V: further properties of the code *)

(** X1.  On a reachable manager the cache and the embeddings of a session are in
    step: a session has the one exactly when it has the other, the cached
    queries are distinct, and a query is cached exactly when it has an
    embedding. *)
Theorem cache_embeddings_in_sync (s : SessionCacheManager) (sid : str) :
  reachable s →
  (is_Some (session_caches s !! sid) ↔ is_Some (session_embeddings s !! sid))
  ∧ NoDup (odict_keys (cache_entries s sid))
  ∧ (∀ k : str, k ∈ odict_keys (cache_entries s sid)
                ↔ is_Some (entry_embeddings s sid !! k)).
Proof.
  intros Hr. pose proof (reachable_wf s Hr) as Hwf. split.
  - apply (wf_dom s Hwf).
  - apply (wf_keys_synced s sid Hwf).
Qed.

Lemma cache_embeddings_in_sync_witness :
  reachable full_session
  ∧ NoDup (odict_keys (cache_entries full_session [115%N]))
  ∧ is_Some (entry_embeddings full_session [115%N] !! [7%N]).
Proof.
  split; [apply full_session_reachable|].
  pose proof (cache_embeddings_in_sync full_session [115%N]
                full_session_reachable) as (_ & Hnd & Hk).
  split; [exact Hnd|]. apply Hk. by vm_compute; repeat constructor.
Defined.

(** X2.  On a reachable manager the empty session id owns nothing, and the four
    session methods called with it change nothing and return their default. *)
Theorem empty_session_id_owns_nothing (s : SessionCacheManager)
    (query response now : str) :
  reachable s →
  session_caches s !! ([] : str) = None
  ∧ session_embeddings s !! ([] : str) = None
  ∧ session_contexts s !! ([] : str) = None
  ∧ check_semantic_cache query [] s = (Ret None, s)
  ∧ add_to_semantic_cache query response [] now s = (Ret tt, s)
  ∧ add_to_context [] query response now s = (Ret tt, s)
  ∧ get_context_for_query [] query s = (Ret query, s).
Proof.
  intros Hr. pose proof (reachable_wf s Hr) as Hwf. split_and!; try done.
  - apply (wf_sid_caches s Hwf).
  - destruct (session_embeddings s !! ([] : str)) eqn:E; [|done].
    destruct (proj2 (wf_dom s Hwf []) (mk_is_Some _ _ E)) as [c Hc].
    by rewrite (wf_sid_caches s Hwf) in Hc.
  - apply (wf_sid_contexts s Hwf).
Qed.

Lemma empty_session_id_owns_nothing_witness :
  reachable two_sessions
  ∧ session_caches two_sessions !! ([] : str) = None
  ∧ add_to_semantic_cache [113%N] [114%N] [] [116%N] two_sessions
    = (Ret tt, two_sessions).
Proof.
  assert (Hr : reachable two_sessions) by apply run_reachable, reach_init.
  split; [exact Hr|].
  pose proof (empty_session_id_owns_nothing two_sessions [113%N] [114%N]
                [116%N] Hr) as (H1 & _ & _ & _ & H5 & _).
  by split.
Defined.

(** X3.  On a reachable manager an insertion into one session touches neither the
    other sessions, nor the contexts, nor the configuration. *)
Theorem add_to_semantic_cache_frame (s : SessionCacheManager)
    (query response sid now : str) :
  reachable s →
  let s' := exec (AddToSemanticCache query response sid now) s in
  (∀ sid' : str, sid' ≠ sid →
     session_caches s' !! sid' = session_caches s !! sid'
     ∧ session_embeddings s' !! sid' = session_embeddings s !! sid')
  ∧ session_contexts s' = session_contexts s
  ∧ embedding_model s' = embedding_model s
  ∧ cache_threshold s' = cache_threshold s
  ∧ max_session_cache_size s' = max_session_cache_size s
  ∧ max_context_length s' = max_context_length s.
Proof.
  intros Hr. pose proof (reachable_wf s Hr) as Hwf. cbn zeta. cbn [exec].
  destruct (decide (sid = [])) as [->|Hsid]; [done|].
  destruct (add_to_semantic_cache_spec s query response sid now Hwf Hsid)
    as (s' & -> & Hm & Hx & Ht & Hn & Hl & Hs). cbn [snd].
  split_and!; try done.
  intros sid' Hne.
  destruct (embedding_model s query); destruct Hs as [-> ->];
    by rewrite !lookup_insert_ne.
Qed.

Lemma add_to_semantic_cache_frame_witness :
  reachable two_sessions
  ∧ ([118%N] : str) ≠ [115%N]
  ∧ session_caches
      (exec (AddToSemanticCache [120%N] [114%N] [115%N] [116%N]) two_sessions)
    !! [118%N]
    = session_caches two_sessions !! [118%N].
Proof.
  assert (Hr : reachable two_sessions) by apply run_reachable, reach_init.
  assert (Hne : ([118%N] : str) ≠ [115%N]) by discriminate.
  split; [exact Hr|]. split; [exact Hne|].
  exact (proj1 (proj1 (add_to_semantic_cache_frame two_sessions [120%N]
                         [114%N] [115%N] [116%N] Hr) [118%N] Hne)).
Defined.

(** X4.  On every manager an append returns normally and touches only the context
    of its session. *)
Theorem add_to_context_frame (s : SessionCacheManager)
    (sid query response now : str) :
  let s' := exec (AddToContext sid query response now) s in
  fst (add_to_context sid query response now s) = Ret tt
  ∧ session_caches s' = session_caches s
  ∧ session_embeddings s' = session_embeddings s
  ∧ (∀ sid' : str, sid' ≠ sid →
       session_contexts s' !! sid' = session_contexts s !! sid')
  ∧ embedding_model s' = embedding_model s
  ∧ cache_threshold s' = cache_threshold s
  ∧ max_session_cache_size s' = max_session_cache_size s
  ∧ max_context_length s' = max_context_length s.
Proof.
  cbn zeta. cbn [exec].
  destruct (decide (sid = [])) as [->|Hsid]; [done|].
  rewrite add_to_context_spec by done. cbn. split_and!; try done.
  intros sid' Hne. by rewrite lookup_insert_ne.
Qed.

Lemma add_to_context_frame_witness :
  ([118%N] : str) ≠ [115%N]
  ∧ session_contexts
      (exec (AddToContext [115%N] [120%N] [114%N] [116%N]) two_sessions)
    !! [118%N]
    = session_contexts two_sessions !! [118%N].
Proof.
  assert (Hne : ([118%N] : str) ≠ [115%N]) by discriminate.
  split; [exact Hne|].
  exact (proj1 (proj2 (proj2 (proj2 (add_to_context_frame two_sessions
           [115%N] [120%N] [114%N] [116%N])))) [118%N] Hne).
Defined.

(** X5.  On every manager the three read methods leave the manager unchanged, on
    every path. *)
Theorem read_operations_leave_manager (s : SessionCacheManager)
    (query sid : str) :
  snd (check_semantic_cache query sid s) = s
  ∧ snd (get_context_for_query sid query s) = s
  ∧ snd (get_session_stats s) = s.
Proof.
  split_and!.
  - apply check_semantic_cache_state.
  - apply get_context_for_query_state.
  - done.
Qed.

(** X6.  Below the capacity, re-inserting a cached query keeps the order of the
    session, overwrites the response, the timestamp and the embedding of that
    query, and changes no other entry. *)
Theorem reinsert_below_capacity (s : SessionCacheManager)
    (query response sid now : str) (cache : odict cache_data)
    (qe : embedding) :
  reachable s →
  session_caches s !! sid = Some cache →
  query ∈ odict_keys cache →
  length cache < 50 →
  embedding_model s query = Ret qe →
  let s' := exec (AddToSemanticCache query response sid now) s in
  odict_keys (cache_entries s' sid) = odict_keys cache
  ∧ odict_get query (cache_entries s' sid) = Some (CacheData response now)
  ∧ (∀ k : str, k ≠ query →
       odict_get k (cache_entries s' sid) = odict_get k cache
       ∧ entry_embeddings s' sid !! k = entry_embeddings s sid !! k)
  ∧ entry_embeddings s' sid !! query = Some qe.
Proof.
  intros Hr Hc Hin Hlen Hq. pose proof (reachable_wf s Hr) as Hwf.
  assert (Hsid : sid ≠ []).
  { intros ->. by rewrite (wf_sid_caches s Hwf) in Hc. }
  cbn zeta. cbn [exec].
  destruct (add_to_semantic_cache_spec s query response sid now Hwf Hsid)
    as (s' & -> & _ & _ & _ & _ & _ & Hs).
  rewrite Hq, Hc in Hs. cbn [default from_option id snd] in *.
  destruct Hs as [Hc' He']. unfold cache_entries, entry_embeddings.
  rewrite Hc', He', !lookup_insert_eq. cbn [default from_option id].
  unfold evicted_cache, evicted_embeddings.
  destruct (Nat.leb_spec 50 (length cache)) as [?|_]; [lia|].
  split_and!.
  - rewrite odict_keys_set. by rewrite decide_True.
  - apply odict_get_set_eq.
  - intros k Hne. split; [by apply odict_get_set_ne|].
    by rewrite lookup_insert_ne.
  - by rewrite lookup_insert_eq.
Qed.

Lemma reinsert_below_capacity_witness :
  reachable (one_entry [114%N])
  ∧ odict_get [113%N]
      (cache_entries
         (exec (AddToSemanticCache [113%N] [119%N] [115%N] [117%N])
               (one_entry [114%N])) [115%N])
    = Some (CacheData [119%N] [117%N]).
Proof.
  split; [apply one_entry_reachable|].
  refine (proj1 (proj2 (reinsert_below_capacity (one_entry [114%N])
            [113%N] [119%N] [115%N] [117%N]
            [([113%N], CacheData [114%N] [116%N])] [1%float]
            (one_entry_reachable _) eq_refl _ _ eq_refl))).
  - by vm_compute; repeat constructor.
  - cbn. lia.
Defined.

(** X7.  At the capacity, re-inserting a cached query still evicts the oldest entry:
    49 entries remain, unless the query is itself the oldest, which then moves
    to the newest position. *)
Theorem reinsert_at_capacity (s : SessionCacheManager)
    (query response sid now oldest : str) (d : cache_data)
    (rest : odict cache_data) (qe : embedding) :
  reachable s →
  session_caches s !! sid = Some ((oldest, d) :: rest) →
  length ((oldest, d) :: rest) = 50 →
  query ∈ odict_keys ((oldest, d) :: rest) →
  embedding_model s query = Ret qe →
  let s' := exec (AddToSemanticCache query response sid now) s in
  (query ≠ oldest →
   length (cache_entries s' sid) = 49
   ∧ odict_keys (cache_entries s' sid) = odict_keys rest
   ∧ odict_get oldest (cache_entries s' sid) = None)
  ∧ (query = oldest →
     cache_entries s' sid = rest ++ [(query, CacheData response now)]).
Proof.
  intros Hr Hc Hlen Hin Hq. pose proof (reachable_wf s Hr) as Hwf.
  assert (Hsid : sid ≠ []).
  { intros ->. by rewrite (wf_sid_caches s Hwf) in Hc. }
  destruct (proj1 (wf_dom s Hwf sid) (mk_is_Some _ _ Hc)) as [e He].
  destruct (wf_keys s Hwf sid _ e Hc He) as [Hnd _].
  cbn [odict_keys map fst] in Hnd. apply NoDup_cons in Hnd as [Hfresh Hnd].
  cbn zeta. cbn [exec].
  destruct (add_to_semantic_cache_spec s query response sid now Hwf Hsid)
    as (s' & -> & _ & _ & _ & _ & _ & Hs).
  rewrite Hq, Hc in Hs. cbn [default from_option id snd] in *.
  destruct Hs as [Hc' _]. unfold cache_entries.
  rewrite Hc', !lookup_insert_eq. cbn [default from_option id].
  unfold evicted_cache. rewrite Hlen. change (50 <=? 50) with true.
  cbn [tail]. split.
  - intros Hne.
    assert (Hin' : query ∈ odict_keys rest).
    { cbn in Hin. apply elem_of_cons in Hin as [?|?]; done. }
    assert (Hk : odict_keys (odict_set query (CacheData response now) rest)
                 = odict_keys rest).
    { rewrite odict_keys_set. by rewrite decide_True. }
    split_and!.
    + rewrite odict_set_length, decide_True by done. cbn in Hlen. lia.
    + exact Hk.
    + rewrite odict_get_set_ne by done.
      clear -Hfresh. induction rest as [|[k v] rest IH]; [done|].
      cbn in *. rewrite decide_False.
      * apply IH. intros ?. apply Hfresh. by right.
      * intros ->. apply Hfresh. left.
  - intros ->. by apply odict_set_fresh.
Qed.

Lemma reinsert_at_capacity_witness :
  reachable full_session
  ∧ ([7%N] : str) ≠ [0%N]
  ∧ length (cache_entries
              (exec (AddToSemanticCache [7%N] [119%N] [115%N] [117%N])
                    full_session) [115%N]) = 49.
Proof.
  assert (Hne : ([7%N] : str) ≠ [0%N]) by discriminate.
  split; [apply full_session_reachable|]. split; [exact Hne|].
  refine (proj1 (proj1 (reinsert_at_capacity full_session
            [7%N] [119%N] [115%N] [117%N] [0%N] (CacheData [114%N] [116%N])
            (tail (cache_entries full_session [115%N])) [1%float]
            full_session_reachable full_session_cache _ _ eq_refl) Hne)).
  - by vm_compute.
  - by vm_compute; repeat constructor.
Defined.

(** X8.  A failed first insertion leaves an empty session behind, which the
    statistics count. *)
Theorem failed_first_insert_creates_empty_session (s : SessionCacheManager)
    (query response sid now : str) (err : exn) :
  reachable s → sid ≠ [] →
  session_caches s !! sid = None →
  embedding_model s query = Raise err →
  let s' := exec (AddToSemanticCache query response sid now) s in
  session_caches s' !! sid = Some []
  ∧ session_embeddings s' !! sid = Some ∅
  ∧ ∀ st st' : stats,
      fst (get_session_stats s) = Ret st →
      fst (get_session_stats s') = Ret st' →
      total_sessions st' = S (total_sessions st)
      ∧ total_cached_queries st' = total_cached_queries st.
Proof.
  intros Hr Hsid Hc Hq. pose proof (reachable_wf s Hr) as Hwf.
  cbn zeta. cbn [exec].
  destruct (add_to_semantic_cache_spec s query response sid now Hwf Hsid)
    as (s' & -> & _ & _ & _ & _ & _ & Hs).
  assert (He : session_embeddings s !! sid = None).
  { destruct (session_embeddings s !! sid) eqn:E; [|done].
    destruct (proj2 (wf_dom s Hwf sid) (mk_is_Some _ _ E)) as [c Hc0].
    by rewrite Hc in Hc0. }
  rewrite Hq, Hc, He in Hs. cbn in Hs. cbn [snd].
  destruct Hs as [Hc' He']. rewrite Hc', He', !lookup_insert_eq.
  split_and!; try done.
  intros st st' [= <-] [= <-]. cbn. rewrite Hc'. split.
  - by rewrite map_size_insert_None.
  - unfold sum_len. rewrite map_fold_insert_L; [cbn; lia| |done].
    intros. lia.
Qed.

Lemma failed_first_insert_creates_empty_session_witness :
  reachable (__init__ always_fails)
  ∧ session_caches
      (exec (AddToSemanticCache [113%N] [114%N] [115%N] [116%N])
            (__init__ always_fails)) !! [115%N]
    = Some [].
Proof.
  assert (Hr : reachable (__init__ always_fails)) by apply reach_init.
  split; [exact Hr|].
  refine (proj1 (failed_first_insert_creates_empty_session
            (__init__ always_fails) [113%N] [114%N] [115%N] [116%N]
            ProviderError Hr _ eq_refl eq_refl)).
  discriminate.
Defined.

(** X9.  On a reachable manager the totals of the statistics are bounded by the
    capacities times the numbers of sessions. *)
Theorem statistics_bounded (s : SessionCacheManager) (st : stats) :
  reachable s → fst (get_session_stats s) = Ret st →
  total_cached_queries st ≤ 50 * total_sessions st
  ∧ total_contexts st ≤ 10 * size (session_contexts s).
Proof.
  intros Hr [= <-]. pose proof (reachable_wf s Hr) as Hwf.
  cbn [total_cached_queries total_sessions total_contexts]. split.
  - apply sum_len_bound, (wf_cache_bound s Hwf).
  - apply sum_len_bound, (wf_context_bound s Hwf).
Qed.

Lemma statistics_bounded_witness :
  reachable full_session
  ∧ fst (get_session_stats full_session) = Ret (Stats 1 50 0 0.75%float 50 10)
  ∧ total_cached_queries (Stats 1 50 0 0.75%float 50 10)
    ≤ 50 * total_sessions (Stats 1 50 0 0.75%float 50 10).
Proof.
  assert (Hs : fst (get_session_stats full_session)
               = Ret (Stats 1 50 0 0.75%float 50 10)) by (by vm_compute).
  split; [apply full_session_reachable|]. split; [exact Hs|].
  exact (proj1 (statistics_bounded full_session _
                  full_session_reachable Hs)).
Defined.

(** X10.  After [clear_all_caches] nothing is stored: lookups miss, queries come back
    unchanged and the totals are zero; the configuration is kept. *)
Theorem clear_all_caches_resets (s : SessionCacheManager)
    (query sid : str) :
  let s' := exec ClearAllCaches s in
  clear_all_caches s = (Ret tt, s')
  ∧ session_caches s' = ∅
  ∧ session_embeddings s' = ∅
  ∧ session_contexts s' = ∅
  ∧ embedding_model s' = embedding_model s
  ∧ cache_threshold s' = cache_threshold s
  ∧ max_session_cache_size s' = max_session_cache_size s
  ∧ max_context_length s' = max_context_length s
  ∧ check_semantic_cache query sid s' = (Ret None, s')
  ∧ get_context_for_query sid query s' = (Ret query, s')
  ∧ (∀ st : stats,
       fst (get_session_stats s') = Ret st →
       total_sessions st = 0 ∧ total_cached_queries st = 0
       ∧ total_contexts st = 0).
Proof.
  cbn zeta. cbn [exec]. rewrite clear_all_caches_spec. cbn [snd].
  split_and!; try done.
  - by apply check_semantic_cache_absent.
  - unfold get_context_for_query. munfold. cbn.
    rewrite lookup_empty. by destruct (truthy sid).
  - intros st [= <-]. cbn. unfold sum_len.
    by rewrite map_size_empty, !map_fold_empty.
Qed.

(** X11.  After any list of appends to a session, its context is the last 10 of its
    earlier turns followed by the appended ones. *)
Theorem context_is_window_of_appends (s : SessionCacheManager) (sid : str)
    (turns : list turn) :
  reachable s → sid ≠ [] →
  context_turns (run (map (append_call sid) turns) s) sid
  = last_n 10 (context_turns s sid ++ turns).
Proof.
  intros Hr Hsid. revert s Hr.
  induction turns as [|t turns IH]; intros s Hr.
  - cbn. rewrite app_nil_r, last_n_all; [done|].
    unfold context_turns.
    destruct (session_contexts s !! sid) as [c|] eqn:Hc; cbn; [|lia].
    by apply (wf_context_bound s (reachable_wf s Hr) sid).
  - cbn [map run fold_left]. change (fold_left _ ?l ?x) with (run l x).
    rewrite IH by (by apply reach_call).
    unfold append_call at 1.
    rewrite add_to_context_turns by (done || by apply reachable_wf).
    destruct t as [q r now]. cbn [turn_query turn_response turn_timestamp].
    rewrite last_n_app. by rewrite <- app_assoc.
Qed.

Lemma context_is_window_of_appends_witness :
  reachable ten_turns
  ∧ ([115%N] : str) ≠ []
  ∧ context_turns
      (run (map (append_call [115%N])
                [Turn [10%N] [114%N] [117%N]; Turn [11%N] [114%N] [117%N]])
           ten_turns) [115%N]
    = last_n 10 (context_turns ten_turns [115%N]
                 ++ [Turn [10%N] [114%N] [117%N]; Turn [11%N] [114%N] [117%N]]).
Proof.
  assert (Hne : ([115%N] : str) ≠ []) by discriminate.
  split; [apply ten_turns_reachable|]. split; [exact Hne|].
  exact (context_is_window_of_appends ten_turns [115%N] _
           ten_turns_reachable Hne).
Defined.

(** X12.  After inserting distinct new queries with computed embeddings, the cache
    of the session is the last 50 of its earlier entries followed by the new
    ones. *)
Theorem cache_is_window_of_inserts (s : SessionCacheManager) (sid : str)
    (entries : odict cache_data) :
  reachable s → sid ≠ [] →
  NoDup (odict_keys entries) →
  (∀ q : str, q ∈ odict_keys entries →
     (q ∉ odict_keys (cache_entries s sid))
     ∧ (∃ qe : embedding, embedding_model s q = Ret qe)) →
  cache_entries (run (map (insert_call sid) entries) s) sid
  = last_n 50 (cache_entries s sid ++ entries).
Proof.
  intros Hr Hsid. revert s Hr.
  induction entries as [|[q [r now]] entries IH]; intros s Hr Hnd Hall.
  - cbn. rewrite app_nil_r, last_n_all; [done|].
    unfold cache_entries.
    destruct (session_caches s !! sid) as [c|] eqn:Hc; cbn; [|lia].
    by apply (wf_cache_bound s (reachable_wf s Hr) sid).
  - pose proof (reachable_wf s Hr) as Hwf.
    cbn [odict_keys map fst] in Hnd. apply NoDup_cons in Hnd as [Hq Hnd].
    destruct (Hall q) as [Hfresh [qe Hqe]]; [left|].
    cbn [map run fold_left]. change (fold_left _ ?l ?x) with (run l x).
    change (insert_call sid (q, {| response := r; timestamp := now |}))
      with (AddToSemanticCache q r sid now).
    rewrite IH.
    + rewrite (add_fresh_entry s q r sid now qe) by done.
      rewrite last_n_app. by rewrite <- app_assoc.
    + by apply reach_call.
    + exact Hnd.
    + intros q' Hq'. destruct (Hall q') as [Hfresh' [qe' Hqe']]; [by right|].
      split.
      * rewrite (add_fresh_entry s q r sid now qe) by done.
        unfold last_n. intros Hin.
        apply list_elem_of_fmap in Hin as (x & -> & Hx).
        apply subseteq_drop in Hx. apply elem_of_app in Hx as [Hx|Hx].
        -- apply Hfresh'. apply list_elem_of_fmap. by exists x.
        -- apply list_elem_of_singleton in Hx. subst x. cbn in Hq.
           by apply Hq.
      * exists qe'. by rewrite exec_embedding_model.
Qed.

Lemma cache_is_window_of_inserts_witness :
  reachable full_session
  ∧ ([115%N] : str) ≠ []
  ∧ cache_entries
      (run (map (insert_call [115%N])
                [([200%N], CacheData [114%N] [117%N]);
                 ([201%N], CacheData [114%N] [117%N])])
           full_session) [115%N]
    = last_n 50 (cache_entries full_session [115%N]
                 ++ [([200%N], CacheData [114%N] [117%N]);
                     ([201%N], CacheData [114%N] [117%N])]).
Proof.
  assert (Hne : ([115%N] : str) ≠ []) by discriminate.
  split; [apply full_session_reachable|]. split; [exact Hne|].
  refine (cache_is_window_of_inserts full_session [115%N] _
            full_session_reachable Hne _ _).
  - cbn. repeat constructor; intros H;
      repeat (apply elem_of_cons in H as [H|H]; [discriminate H|]);
      by apply elem_of_nil in H.
  - intros q Hq. split; [|by exists [1%float]].
    cbn in Hq. vm_compute. intros H.
    apply elem_of_cons in Hq as [->|Hq];
      [|apply elem_of_cons in Hq as [->|Hq]; [|by apply elem_of_nil in Hq]];
      repeat (apply elem_of_cons in H as [H|H]; [discriminate H|]);
      by apply elem_of_nil in H.
Defined.

(** X13.  Round trip: a lookup of the query just inserted returns the response just
    stored, when the response is not empty, the self-similarity reaches the
    threshold and no other entry of the session is as similar. *)
Theorem lookup_after_insert (s : SessionCacheManager)
    (query response sid now : str) (qe : embedding) :
  reachable s → sid ≠ [] → response ≠ [] →
  embedding_model s query = Ret qe →
  (0.75 <=? _calculate_similarity qe qe)%float = true →
  (∀ (k : str) (e : embedding),
     k ≠ query → entry_embeddings s sid !! k = Some e →
     (_calculate_similarity qe qe <=? _calculate_similarity qe e)%float
     = false) →
  let s' := exec (AddToSemanticCache query response sid now) s in
  fst (check_semantic_cache query sid s') = Ret (Some response).
Proof.
  intros Hr Hsid Hresp Hq Hself Hothers. cbn zeta.
  pose proof (reachable_wf s Hr) as Hwf.
  set (s' := exec (AddToSemanticCache query response sid now) s).
  assert (Hr' : reachable s') by (by apply reach_call).
  pose proof (reachable_wf s' Hr') as Hwf'.
  assert (Hq' : embedding_model s' query = Ret qe)
    by (unfold s'; by rewrite exec_embedding_model).
  assert (Hstate : cache_entries s' sid
                   = odict_set query (CacheData response now)
                       (evicted_cache (cache_entries s sid))
                   ∧ entry_embeddings s' sid
                     = <[query := qe]>
                         (evicted_embeddings (cache_entries s sid)
                            (entry_embeddings s sid))).
  { unfold s'. cbn [exec].
    destruct (add_to_semantic_cache_spec s query response sid now Hwf Hsid)
      as (s1 & -> & _ & _ & _ & _ & _ & Hs).
    rewrite Hq in Hs. destruct Hs as [Hc He]. cbn [snd].
    unfold cache_entries, entry_embeddings.
    by rewrite Hc, He, !lookup_insert_eq. }
  destruct Hstate as [Hc' He'].
  destruct (odict_get_lookup query (CacheData response now)
              (cache_entries s' sid)) as [i Hi].
  { rewrite Hc'. apply odict_get_set_eq. }
  assert (Hsub : ∀ (k : str) (e : embedding),
            k ≠ query → entry_embeddings s' sid !! k = Some e →
            entry_embeddings s sid !! k = Some e).
  { intros k e Hne. rewrite He', lookup_insert_ne by done.
    unfold evicted_embeddings. destruct (50 <=? _); [|done].
    destruct (odict_first _); [|done].
    intros H. apply lookup_delete_Some in H. tauto. }
  destruct (wf_keys_synced s' sid Hwf') as [Hnd _].
  fold (cache_entries s' sid) in Hnd.
  assert (Hbest : best_match 0.75 qe (entry_embeddings s' sid)
                    (cache_entries s' sid) i
                    (query, CacheData response now)
                    (_calculate_similarity qe qe)).
  { assert (Hsim : ∀ (j : nat) (item' : str * cache_data) (sim' : float),
              cache_entries s' sid !! j = Some item' →
              similarity_of qe (entry_embeddings s' sid) item' = Some sim' →
              j = i
              ∨ (_calculate_similarity qe qe <=? sim')%float = false).
    { intros j [k d] sim' Hj. unfold similarity_of. cbn [fst].
      destruct (entry_embeddings s' sid !! k) as [e|] eqn:Hk; [|done].
      intros [= <-]. destruct (decide (k = query)) as [->|Hne].
      - left. eapply NoDup_lookup; [exact Hnd| |].
        + unfold odict_keys. by rewrite list_lookup_fmap, Hj.
        + unfold odict_keys. by rewrite list_lookup_fmap, Hi.
      - right. eapply Hothers; [exact Hne|]. by apply Hsub. }
    split_and!.
    - exact Hi.
    - unfold similarity_of. cbn [fst]. by rewrite He', lookup_insert_eq.
    - exact Hself.
    - intros j item' sim' Hj Hs'.
      destruct (Hsim j item' sim' Hj Hs') as [->|Hle].
      + rewrite Hi in Hj. injection Hj as <-.
        unfold similarity_of in Hs'. cbn [fst] in Hs'.
        rewrite He', lookup_insert_eq in Hs'. injection Hs' as <-.
        apply ltb_irrefl.
      + destruct (_ <? sim')%float eqn:E; [|done].
        by rewrite (ltb_leb _ _ E) in Hle.
    - intros j item' sim' Hlt Hj Hs'.
      destruct (Hsim j item' sim' Hj Hs') as [->|Hle]; [lia|done]. }
  destruct (check_semantic_cache_selects s' query sid qe Hwf' Hq')
    as (_ & Hsel & _).
  rewrite (Hsel i _ _ Hbest). cbn.
  by destruct response.
Qed.

Lemma lookup_after_insert_witness :
  reachable other_entry
  ∧ fst (check_semantic_cache [120%N] [115%N]
           (exec (AddToSemanticCache [120%N] [121%N] [115%N] [117%N])
                 other_entry))
    = Ret (Some [121%N]).
Proof.
  assert (Hr : reachable other_entry) by apply reach_call, reach_init.
  split; [exact Hr|].
  refine (lookup_after_insert other_entry [120%N] [121%N] [115%N] [117%N]
            [0; 1]%float Hr _ _ eq_refl eq_refl _); try discriminate.
  intros k e Hne. rewrite other_entry_embeddings.
  intros [<- <-]%lookup_singleton_Some. reflexivity.
Defined.

(** X14.  A hit is sound: the response returned is the stored response of the best
    match of that very session, and it is not empty. *)
Theorem hit_comes_from_session (s : SessionCacheManager)
    (query sid r : str) :
  reachable s →
  fst (check_semantic_cache query sid s) = Ret (Some r) →
  r ≠ []
  ∧ ∃ (qe : embedding) (i : nat) (item : str * cache_data) (sim : float),
      embedding_model s query = Ret qe
      ∧ session_caches s !! sid = Some (cache_entries s sid)
      ∧ best_match 0.75 qe (entry_embeddings s sid) (cache_entries s sid)
          i item sim
      ∧ response (snd item) = r.
Proof.
  intros Hr Hres. pose proof (reachable_wf s Hr) as Hwf.
  assert (Hne : r ≠ []).
  { intros ->. pose proof (check_semantic_cache_result s query sid Hwf) as H.
    rewrite Hres in H.
    destruct (session_caches s !! sid) as [[|item c]|]; try done.
    destruct (embedding_model s query) as [qe|err];
      [|by destruct (is_exception err)].
    injection H as H. symmetry in H. by apply hit_not_empty in H. }
  split; [exact Hne|].
  pose proof (check_semantic_cache_result s query sid Hwf) as Hform.
  rewrite Hres in Hform.
  destruct (session_caches s !! sid) as [c|] eqn:Hc; [|done].
  destruct (embedding_model s query) as [qe|err] eqn:Hq;
    [|by destruct c, (is_exception err)].
  destruct (check_semantic_cache_selects s query sid qe Hwf Hq)
    as (_ & Hsel & Hnone & [(i & item & sim & Hbest)|Hall]).
  - exists qe, i, item, sim. split_and!; try done.
    + unfold cache_entries. by rewrite Hc.
    + rewrite (Hsel i item sim Hbest) in Hres. injection Hres as Hres.
      destruct (truthy (response (snd item))); [by injection Hres|done].
  - by rewrite (Hnone Hall) in Hres.
Qed.

Lemma hit_comes_from_session_witness :
  reachable (one_entry [114%N])
  ∧ fst (check_semantic_cache [113%N] [115%N] (one_entry [114%N]))
    = Ret (Some [114%N])
  ∧ ([114%N] : str) ≠ [].
Proof.
  assert (Hres : fst (check_semantic_cache [113%N] [115%N] (one_entry [114%N]))
                 = Ret (Some [114%N])) by (by vm_compute).
  split; [apply one_entry_reachable|]. split; [exact Hres|].
  exact (proj1 (hit_comes_from_session (one_entry [114%N]) [113%N] [115%N]
                  [114%N] (one_entry_reachable _) Hres)).
Defined.

(** X15.  When the stored embeddings have another dimension than the query's, the
    lookup misses. *)
Theorem dimension_mismatch_misses (s : SessionCacheManager)
    (query sid : str) (qe : embedding) :
  reachable s → embedding_model s query = Ret qe →
  (∀ (k : str) (e : embedding),
     entry_embeddings s sid !! k = Some e → length e ≠ length qe) →
  fst (check_semantic_cache query sid s) = Ret None.
Proof.
  intros Hr Hq Hdim. pose proof (reachable_wf s Hr) as Hwf.
  destruct (check_semantic_cache_selects s query sid qe Hwf Hq)
    as (_ & _ & Hnone & _).
  apply Hnone. intros j [k d] sim Hj. unfold similarity_of. cbn [fst].
  destruct (entry_embeddings s sid !! k) as [e|] eqn:Hk; [|done].
  intros [= <-]. rewrite calculate_similarity_mismatch; [done|].
  intros Heq. by apply (Hdim k e Hk).
Qed.

Lemma dimension_mismatch_misses_witness :
  reachable (with_embedding_model always_one other_entry)
  ∧ fst (check_semantic_cache [113%N] [115%N]
           (with_embedding_model always_one other_entry))
    = Ret None.
Proof.
  assert (Hr : reachable (with_embedding_model always_one other_entry))
    by apply reach_provider, reach_call, reach_init.
  split; [exact Hr|].
  refine (dimension_mismatch_misses _ [113%N] [115%N] [1%float] Hr eq_refl _).
  intros k e. change (entry_embeddings (with_embedding_model always_one
                                           other_entry) [115%N])
    with (entry_embeddings other_entry [115%N]).
  rewrite other_entry_embeddings.
  intros [<- <-]%lookup_singleton_Some. discriminate.
Defined.

(** X16.  A query embedded as a vector of zero norm is not found again: the
    similarity with its own embedding is NaN. *)
Theorem zero_embedding_never_matches_itself (s : SessionCacheManager)
    (query sid : str) (qe : embedding) :
  reachable s → embedding_model s query = Ret qe →
  np_sum_products qe qe = 0%float →
  (∀ (k : str) (e : embedding),
     entry_embeddings s sid !! k = Some e → e = qe) →
  fst (check_semantic_cache query sid s) = Ret None.
Proof.
  intros Hr Hq Hzero Hsame. pose proof (reachable_wf s Hr) as Hwf.
  destruct (check_semantic_cache_selects s query sid qe Hwf Hq)
    as (_ & _ & Hnone & _).
  apply Hnone. intros j [k d] sim Hj. unfold similarity_of. cbn [fst].
  destruct (entry_embeddings s sid !! k) as [e|] eqn:Hk; [|done].
  intros [= <-]. rewrite (Hsame k e Hk).
  rewrite calculate_similarity_formula by done.
  unfold np_linalg_norm. rewrite Hzero. reflexivity.
Qed.

Lemma zero_embedding_never_matches_itself_witness :
  reachable zero_entry
  ∧ fst (check_semantic_cache [113%N] [115%N] zero_entry) = Ret None.
Proof.
  assert (Hr : reachable zero_entry) by apply reach_call, reach_init.
  split; [exact Hr|].
  refine (zero_embedding_never_matches_itself zero_entry [113%N] [115%N]
            [0; 0]%float Hr eq_refl eq_refl _).
  intros k e.
  assert (He : entry_embeddings zero_entry [115%N]
               = {[ [113%N] := [0; 0]%float ]}) by (by vm_compute).
  rewrite He. by intros [<- <-]%lookup_singleton_Some.
Defined.

(** X17.  After an append, the enhanced query is the lines of the last two
    earlier turns, each followed by a newline, then the two lines of the turn
    just added, each followed by a newline, then the line of the current
    query. *)
Theorem latest_turn_is_in_enhanced_query (s : SessionCacheManager)
    (sid query response now current_query : str) :
  reachable s → sid ≠ [] →
  let s' := exec (AddToContext sid query response now) s in
  fst (get_context_for_query sid current_query s')
  = Ret (concat (map (fun line => line ++ newline)
                   (flat_map turn_lines (last_n 2 (context_turns s sid))))
         ++ user_asked ++ query ++ newline
         ++ ai_answered ++ take 100 response ++ ellipsis ++ newline
         ++ current_question ++ current_query).
Proof.
  intros Hr Hsid. cbn zeta. pose proof (reachable_wf s Hr) as Hwf.
  rewrite get_context_for_query_result by (by apply wf_exec).
  rewrite add_to_context_turns by done. cbn [fst].
  rewrite last_n_last_n by lia. rewrite (last_n_snoc 2).
  rewrite (last_n_snoc 9).
  destruct (last_n 9 (context_turns s sid) ++ [Turn query response now])
    eqn:E; [by destruct (last_n 9 _)|].
  rewrite join_snoc, flat_map_app, map_app, concat_app.
  cbn [flat_map turn_lines turn_query turn_response map concat app].
  by rewrite <- !app_assoc.
Qed.

Lemma latest_turn_is_in_enhanced_query_witness :
  reachable ten_turns
  ∧ ([115%N] : str) ≠ []
  ∧ fst (get_context_for_query [115%N] [121%N]
           (exec (AddToContext [115%N] [120%N] [114%N] [117%N]) ten_turns))
    = Ret [29992; 25143; 38382; 58; 32; 8; 10;
           65; 73; 31572; 58; 32; 114; 46; 46; 46; 10;
           29992; 25143; 38382; 58; 32; 9; 10;
           65; 73; 31572; 58; 32; 114; 46; 46; 46; 10;
           29992; 25143; 38382; 58; 32; 120; 10;
           65; 73; 31572; 58; 32; 114; 46; 46; 46; 10;
           24403; 21069; 38382; 39064; 58; 32; 121]%N.
Proof.
  assert (Hne : ([115%N] : str) ≠ []) by discriminate.
  split; [apply ten_turns_reachable|]. split; [exact Hne|].
  exact (latest_turn_is_in_enhanced_query ten_turns [115%N] [120%N] [114%N]
           [117%N] [121%N] ten_turns_reachable Hne).
Defined.

(** X18.  The similarity is symmetric, as a binary64 value. *)
Theorem calculate_similarity_symmetric (a b : embedding) :
  _calculate_similarity a b = _calculate_similarity b a.
Proof.
  unfold _calculate_similarity, np_dot.
  rewrite (Nat.eqb_sym (length a) (length b)).
  destruct (Nat.eqb (length b) (length a)); [|done].
  assert (Hd : np_sum_products a b = np_sum_products b a)
    by apply np_sum_products_from_comm.
  by rewrite Hd, (float_mul_comm (np_linalg_norm a)).
Qed.

(** The hypotheses of X19 hold at these vectors. *)
Lemma calculate_similarity_zero_norm_never_zero_witness :
  length [0; 0]%float = length [1; 0]%float
  ∧ (np_linalg_norm [0; 0]%float = 0%float
     ∨ np_linalg_norm [1; 0]%float = 0%float)
  ∧ (_calculate_similarity [0; 0]%float [1; 0]%float =? 0)%float = false.
Proof.
  split; [reflexivity|]. split; [left; reflexivity|].
  exact (calculate_similarity_zero_norm_never_zero [0; 0]%float [1; 0]%float
           eq_refl (or_introl eq_refl)).
Defined.

(** X20.  With a provider that always fails, no call sequence ever stores an entry. *)
Theorem manager_without_model_caches_nothing (model : str → outcome embedding)
    (calls : list call) (query sid : str) :
  (∀ q : str, ∃ e : exn, model q = Raise e) →
  let s := run calls (__init__ model) in
  cache_entries s sid = []
  ∧ fst (check_semantic_cache query sid s) = Ret None
  ∧ ∀ st : stats, fst (get_session_stats s) = Ret st →
                  total_cached_queries st = 0.
Proof.
  intros Hfail. cbn zeta.
  assert (Hr : reachable (run calls (__init__ model)))
    by apply run_reachable, reach_init.
  destruct (caches_nothing_run calls (__init__ model) (reach_init model))
    as [_ Hempty].
  { split; [exact Hfail|]. intros sid' c. cbn. by rewrite lookup_empty. }
  set (s := run calls (__init__ model)) in *.
  pose proof (reachable_wf s Hr) as Hwf.
  split_and!.
  - unfold cache_entries.
    destruct (session_caches s !! sid) as [c|] eqn:Hc; cbn; [|done].
    by apply (Hempty sid).
  - rewrite check_semantic_cache_result by done.
    destruct (session_caches s !! sid) as [[|item c]|] eqn:Hc; try done.
    by specialize (Hempty sid _ Hc).
  - intros st [= <-]. cbn [total_cached_queries].
    pose proof (sum_len_bound 0 (session_caches s)) as H.
    cbn in H. apply Nat.le_0_r, H. intros k v Hk.
    by rewrite (Hempty k v Hk).
Qed.

Lemma manager_without_model_caches_nothing_witness :
  (∀ q : str, ∃ e : exn, always_fails q = Raise e)
  ∧ cache_entries (run (fill 3) (__init__ always_fails)) [115%N] = [].
Proof.
  assert (H : ∀ q : str, ∃ e : exn, always_fails q = Raise e)
    by (intros q; by exists ProviderError).
  split; [exact H|].
  exact (proj1 (manager_without_model_caches_nothing always_fails (fill 3)
                  [113%N] [115%N] H)).
Defined.
